(** * ropen: the Rift stage-3 duplex encoder and its balanced index

    A shallow embedding of [ropen.c].  The index is the pointer tree
    hanging off the global [rb_root]; here a pointer to a node is the
    subtree it designates ([NULL] for the null pointer), the [left] and
    [right] fields are the two subtrees of a [Node], and the [parent]
    field, which the C code only follows upwards in [rebalance_up], is
    the list of frames on the way from a node to the root.  Unsigned
    fields are integers with their wrap-around written out, and
    [float] fields are IEEE-754 values in the [spec_float]
    representation of the Standard Library. *)

From Stdlib Require Import ZArith List Bool Lia Sorted SpecFloat.
From Stdlib Require String Ascii DecimalString.
Import ListNotations.
Open Scope Z_scope.

(** ** Machine integers and floats *)

Definition uint8 (x : Z) : Z := x mod 256.
Definition uint32 (x : Z) : Z := x mod 4294967296.

Definition INT_MAX : Z := 2147483647.
(** The representable value of an [int] computation that left the range. *)
Definition int_wrap (x : Z) : Z := (x + 2147483648) mod 4294967296 - 2147483648.

(** [float] of the C code: binary32 values, mantissa and exponent as in
    [SpecFloat] (a normal number has a 24-bit mantissa). *)
Definition float32 : Type := spec_float.

Definition f32_zero : float32 := S754_zero false.
Definition f32_one : float32 := S754_finite false 8388608 (-23).
Definition f32_half : float32 := S754_finite false 8388608 (-24).

(** ** The node and the tree *)

(** [struct RBNode] without its three pointers.  The field [height] of
    the C struct is [hgt] here, [height] being the helper function. *)
Record RBNode : Type := mkRBNode {
  key : Z;            (* uint32_t *)
  val : Z;            (* uint8_t  *)
  polarity : Z;       (* uint8_t, '+' or '-' *)
  confidence : float32;
  color : Z;          (* uint8_t, 0 = BLACK, 1 = RED *)
  hgt : Z             (* uint8_t *)
}.

Inductive tree : Type :=
| NULL : tree
| Node : tree -> RBNode -> tree -> tree.

Definition left (n : tree) : tree :=
  match n with NULL => NULL | Node l _ _ => l end.
Definition right (n : tree) : tree :=
  match n with NULL => NULL | Node _ _ r => r end.
Definition set_left (n l : tree) : tree :=
  match n with NULL => NULL | Node _ x r => Node l x r end.
Definition set_right (n r : tree) : tree :=
  match n with NULL => NULL | Node l x _ => Node l x r end.

(** ** Globals *)

Definition PRUNE_THRESHOLD : float32 := f32_half.
Definition PRUNE_STREAK : Z := 1.
Definition POLARITY_POS : Z := 43.   (* '+' *)
Definition POLARITY_NEG : Z := 45.   (* '-' *)

(** ** RB-AVL helpers *)

Definition height (n : tree) : Z :=
  match n with
  | NULL => 0
  | Node _ x _ => hgt x
  end.

Definition bf (n : tree) : Z :=
  match n with
  | NULL => 0
  | Node l _ r => height l - height r
  end.

Definition set_hgt (x : RBNode) (h : Z) : RBNode :=
  mkRBNode (key x) (val x) (polarity x) (confidence x) (color x) h.

Definition update_height (n : tree) : tree :=
  match n with
  | NULL => NULL
  | Node l x r =>
      Node l (set_hgt x (uint8 (1 + (if height l >? height r
                                     then height l else height r)))) r
  end.

(** [rotate_left x]: the subtree that takes the place of [x].  The
    pointer the C function stores in [x->parent] (or in [rb_root]) is the
    returned subtree put where [x] was. *)
Definition rotate_left (x : tree) : tree :=
  match x with
  | Node a xn (Node b yn c) =>
      update_height (Node (update_height (Node a xn b)) yn c)
  | _ => x
  end.

Definition rotate_right (x : tree) : tree :=
  match x with
  | Node (Node a yn b) xn c =>
      update_height (Node a yn (update_height (Node b xn c)))
  | _ => x
  end.

(** One link of the [parent] chain: the parent node and the child it
    keeps on its other side. *)
Inductive frame : Type :=
| LeftOf : RBNode -> tree -> frame     (* n == parent->left  *)
| RightOf : tree -> RBNode -> frame.   (* n == parent->right *)

Definition attach (f : frame) (n : tree) : tree :=
  match f with
  | LeftOf p r => Node n p r
  | RightOf l p => Node l p n
  end.

Definition plug (n : tree) (up : list frame) : tree :=
  fold_left (fun t f => attach f t) up n.

(** The loop of [rebalance_up], one unit of fuel per iteration; [n] is
    the node under the cursor and [up] its chain of parents.  The result
    is the tree under [rb_root] when the loop leaves. *)
Fixpoint rebalance_up (fuel : nat) (n : tree) (up : list frame) : option tree :=
  match n with
  | NULL => Some (plug NULL up)
  | Node _ _ _ =>
      match fuel with
      | O => None
      | S fuel' =>
          let n := update_height n in
          let b := bf n in
          if b >? 1 then                       (* left heavy *)
            let n := if bf (left n) <? 0
                     then set_left n (rotate_left (left n)) else n in
            rebalance_up fuel' (rotate_right n) up
          else if b <? -1 then                 (* right heavy *)
            let n := if bf (right n) >? 0
                     then set_right n (rotate_right (right n)) else n in
            rebalance_up fuel' (rotate_left n) up
          else
            match up with
            | [] => Some n
            | f :: up' => rebalance_up fuel' (attach f n) up'
            end
      end
  end.

(** ** Insert / Mark / Prune *)

Definition overwrite (root node : RBNode) : RBNode :=
  mkRBNode (key root) (val node) (polarity node) (confidence node)
           (color root) (hgt root).

Fixpoint bst_insert (root : tree) (node : RBNode) : tree :=
  match root with
  | NULL => Node NULL node NULL
  | Node l x r =>
      if key node <? key x then update_height (Node (bst_insert l node) x r)
      else if key node >? key x then update_height (Node l x (bst_insert r node))
      else Node l (overwrite x node) r
  end.

Fixpoint find (k : Z) (cur : tree) : option RBNode :=
  match cur with
  | NULL => None
  | Node l x r =>
      if k =? key x then Some x
      else if k <? key x then find k l else find k r
  end.

(** The chain of parents of the node with key [k], found the way
    [bst_insert] and [find] walk down: the subtree at that node and the
    frames above it, nearest parent first. *)
Fixpoint parents (k : Z) (cur : tree) (up : list frame) : tree * list frame :=
  match cur with
  | NULL => (NULL, up)
  | Node l x r =>
      if k <? key x then parents k l (LeftOf x r :: up)
      else if k >? key x then parents k r (RightOf l x :: up)
      else (cur, up)
  end.

(** Iterations granted to [rebalance_up] when it starts below [up]. *)
Definition climb (up : list frame) : nat := 2 * List.length up + 2.

(** [rb_insert].  When the key is absent the new node is linked and
    [rebalance_up] starts at its parent (at the node itself when it is
    the root).  When the key is already in the tree [bst_insert] has
    freed the new node before [rb_insert] reads [n->parent]: a use after
    free, for which C defines no result.  That branch below is the run
    in which the freed block still holds what was last written to it
    (the null [parent] of [calloc]), so that [rebalance_up] works on the
    detached node and the tree is the one [bst_insert] returned. *)
Definition rb_insert (k v : Z) (conf : float32) (pol : Z) (rb_root : tree)
  : option tree :=
  let n := mkRBNode k v pol conf (match rb_root with NULL => 0 | _ => 1 end) 0 in
  let root' := bst_insert rb_root n in
  match find k rb_root with
  | Some _ =>
      match rebalance_up (climb []) (Node NULL n NULL) [] with
      | Some _ => Some root'
      | None => None
      end
  | None =>
      match parents k root' [] with
      | (sub, []) => rebalance_up (climb []) sub []
      | (sub, f :: up) => rebalance_up (climb up) (attach f sub) up
      end
  end.


(** The write [n->f = ...] through the pointer [find] returned: the
    node reached by the same walk is replaced. *)
Fixpoint store (k : Z) (f : RBNode -> RBNode) (cur : tree) : tree :=
  match cur with
  | NULL => NULL
  | Node l x r =>
      if k =? key x then Node l (f x) r
      else if k <? key x then Node (store k f l) x r
      else Node l x (store k f r)
  end.

(** The process state: the tree under [rb_root] and the static array
    [streak] of [mark_measurement], a counter for each index
    [key & 0xFF]. *)
Record state : Type := mkState {
  rb_root : tree;
  streak : Z -> Z      (* int streak[256] *)
}.

Definition init : state := mkState NULL (fun _ => 0).

Definition bucket (k : Z) : Z := Z.land k 255.

Definition set_streak (i v : Z) (a : Z -> Z) : Z -> Z :=
  fun j => if j =? i then v else a j.

Definition set_polarity (x : RBNode) (p : Z) : RBNode :=
  mkRBNode (key x) (val x) p (confidence x) (color x) (hgt x).
Definition set_confidence (x : RBNode) (c : float32) : RBNode :=
  mkRBNode (key x) (val x) (polarity x) c (color x) (hgt x).
Definition set_val (x : RBNode) (v : Z) : RBNode :=
  mkRBNode (key x) v (polarity x) (confidence x) (color x) (hgt x).

(** [mark_measurement]; [pol = 0] is the call without a polarity.  In
    the source the static array [streak] is declared inside the block of
    the [if], so the [else] branch names an array that is not in scope
    there and the file is rejected by a C compiler as it stands.  The
    function below is the source with that declaration moved to the top
    of the function body, one static array for both branches. *)
Definition mark_measurement (k : Z) (conf : float32) (pol : Z) (s : state)
  : state :=
  match find k (rb_root s) with
  | None => s
  | Some n =>
      let n := set_confidence n conf in
      let n := if pol =? 0 then n else set_polarity n pol in
      if SFltb conf PRUNE_THRESHOLD || (polarity n =? POLARITY_NEG) then
        let c := int_wrap (streak s (bucket k) + 1) in
        let n := if c >=? PRUNE_STREAK
                 then set_confidence (set_val n 0) f32_zero else n in
        mkState (store k (fun _ => n) (rb_root s))
                (set_streak (bucket k) c (streak s))
      else
        mkState (store k (fun _ => n) (rb_root s))
                (set_streak (bucket k) 0 (streak s))
  end.

(** ** 2 -> 1 sparse duplex encoding *)

Definition conjugate (x : Z) : Z := uint8 (Z.lxor 15 x).

Definition logical (polarity_A : bool) (a b : Z) : Z :=
  uint8 (Z.lxor (if polarity_A then a else conjugate a)
                (if polarity_A then conjugate b else b)).

Definition tag (polarity_A : bool) : Z :=
  if polarity_A then POLARITY_POS else POLARITY_NEG.

(** The loop of [rift_encode] from the pair at [in_] on, with [out_len]
    bytes already written: the bytes it appends to [out], the final
    [out_len] and the tree. *)
Fixpoint encode_from (in_ : list Z) (out_len : Z) (polarity_A : bool)
  (t : tree) : option (list Z * Z * tree) :=
  match in_ with
  | [] => Some ([], out_len, t)
  | a :: in1 =>
      let b := match in1 with [] => 0 | b :: _ => b end in   (* epsilon pad *)
      let out_len := out_len + 1 in
      match rb_insert (uint32 out_len) (logical polarity_A a b) f32_one
                      (tag polarity_A) t with
      | None => None
      | Some t =>
          match (match in1 with
                 | [] => Some ([], out_len, t)
                 | _ :: in2 => encode_from in2 out_len polarity_A t
                 end) with
          | None => None
          | Some (out, n, t) => Some (logical polarity_A a b :: out, n, t)
          end
      end
  end.

Definition rift_encode (in_ : list Z) (polarity_A : bool) (t : tree)
  : option (list Z * Z * tree) :=
  encode_from in_ 0 polarity_A t.

(** ** Public API *)

(** An open [FILE]: the bytes not yet read and the end-of-file
    indicator.  There is no error indicator: every read delivers the
    bytes that remain, and a stream on which reads fail (on which
    [rift_open] would never see [feof]) is outside the model. *)
Record FILE : Type := mkFILE { unread : list Z; eof : bool }.

Definition fread (count : nat) (f : FILE) : list Z * FILE :=
  (firstn count (unread f),
   mkFILE (skipn count (unread f))
          (eof f || (List.length (unread f) <? count)%nat)).

Definition feof (f : FILE) : bool := eof f.

Fixpoint open_loop (fuel : nat) (f : FILE) (out_cap total : Z)
  (out : list Z) (polarity_A : bool) (t : tree)
  : option (Z * list Z * tree) :=
  if negb (feof f) && (total <? out_cap) then
    match fuel with
    | O => None
    | S fuel' =>
        let (buf, f) := fread 4096 f in
        match rift_encode buf polarity_A t with
        | None => None
        | Some (bytes, m, t) =>
            open_loop fuel' f out_cap (total + m) (out ++ bytes) polarity_A t
        end
    end
  else Some (total, out, t).

(** [rift_open]; [file] is what [fopen] found at [path], [None] when the
    file cannot be opened, and [out_cap] is the [size_t] argument, a
    number that is not negative.  The result is the returned total, the
    bytes written from [out] on and the tree. *)
Definition rift_open (file : option (list Z)) (out_cap : Z)
  (polarity_A : bool) (t : tree) : option (Z * list Z * tree) :=
  match file with
  | None => Some (0, [], t)
  | Some bytes =>
      open_loop (List.length bytes / 4096 + 2) (mkFILE bytes false)
                out_cap 0 [] polarity_A t
  end.


(** [rift_prune_negative]: its body is empty. *)
Definition rift_prune_negative (s : state) : state := s.

(** ** CLI stub *)

Module CLI.

Import Ascii String.
Local Open Scope string_scope.

Definition newline : string := String (ascii_of_nat 10) EmptyString.

(** [sizeof(out)] for [uint8_t out[1 << 20]]. *)
Definition OUT_SIZE : Z := 1048576.

(** [printf("%zu", n)]. *)
Definition decimal (n : Z) : string :=
  DecimalString.NilZero.string_of_uint (N.to_uint (Z.to_N n)).

Definition hex_digit (d : Z) : ascii :=
  nth (Z.to_nat d)
      ["0"; "1"; "2"; "3"; "4"; "5"; "6"; "7";
       "8"; "9"; "A"; "B"; "C"; "D"; "E"; "F"]%char "0"%char.

(** [printf("%02X ", b)] for a byte [b]. *)
Definition hex02 (b : Z) : string :=
  String (hex_digit (b / 16)) (String (hex_digit (b mod 16)) " ").

(** The loop that prints the bytes [out[i]], [i < n && i < 64]. *)
Definition hexdump (out : list Z) : string :=
  fold_right (fun b s => hex02 b ++ s) "" (firstn 64 out).

(** What [main] writes to the standard output after [rift_open]
    returned [n] with the bytes [out]. *)
Definition report (n : Z) (A : bool) (out : list Z) : string :=
  "Encoded " ++ decimal n ++ " bytes (polarity " ++ (if A then "A" else "B")
  ++ ")" ++ newline ++ hexdump out ++ newline.

Definition usage (argv0 : string) : string :=
  "Usage: " ++ argv0 ++ " <file> [A|B]" ++ newline.

(** [argc < 3 || argv[2][0] == 'A'], from the arguments after the
    file. *)
Definition polarity_arg (rest : list string) : bool :=
  match rest with
  | [] => true
  | a :: _ =>
      match a with
      | String c _ => Ascii.eqb c "A"
      | EmptyString => false
      end
  end.

(** [main]: [fs] is the file system [fopen] reads, [argv0] the program
    name and [args] the arguments after it.  The process starts with
    [rb_root == NULL].  The result is the exit status, the standard
    output and the standard error. *)
Definition main (fs : string -> option (list Z)) (argv0 : string)
  (args : list string) : option (Z * string * string) :=
  match args with
  | [] => Some (1, "", usage argv0)
  | path :: rest =>
      let A := polarity_arg rest in
      match rift_open (fs path) OUT_SIZE A NULL with
      | None => None
      | Some (n, out, _) => Some (0, report n A out, "")
      end
  end.

(** File systems for examples: one without files, one with a single
    file. *)
Definition no_files : string -> option (list Z) := fun _ => None.

Definition only_file (name : string) (bytes : list Z)
  : string -> option (list Z) :=
  fun p => if String.eqb p name then Some bytes else None.

Definition image : string := "image.png".

End CLI.

(** ** Histories of the index *)

(** The calls a client makes on the index; an argument is converted to
    the type of the parameter it is passed for. *)
Inductive op : Type :=
| Insert (k v : Z) (conf : float32) (pol : Z)
| Find (k : Z)
| Mark (k : Z) (conf : float32) (pol : Z).

Definition step (s : state) (o : op) : option state :=
  match o with
  | Insert k v conf pol =>
      match rb_insert (uint32 k) (uint8 v) conf (uint8 pol) (rb_root s) with
      | None => None
      | Some t => Some (mkState t (streak s))
      end
  | Find k => let _ := find (uint32 k) (rb_root s) in Some s
  | Mark k conf pol => Some (mark_measurement (uint32 k) conf (uint8 pol) s)
  end.

Fixpoint run (s : state) (ops : list op) : option state :=
  match ops with
  | [] => Some s
  | o :: ops' =>
      match step s o with
      | None => None
      | Some s' => run s' ops'
      end
  end.

(** ** Specification vocabulary *)

Fixpoint size (t : tree) : Z :=
  match t with
  | NULL => 0
  | Node l _ r => size l + 1 + size r
  end.

(** Height of the tree as a shape: [1 + max] over the children, [0] for
    the absent child. *)
Fixpoint true_height (t : tree) : Z :=
  match t with
  | NULL => 0
  | Node l _ r => 1 + Z.max (true_height l) (true_height r)
  end.

Fixpoint balanced (t : tree) : Prop :=
  match t with
  | NULL => True
  | Node l _ r =>
      balanced l /\ balanced r /\
      -1 <= true_height l - true_height r <= 1
  end.

Fixpoint all_keys (P : Z -> Prop) (t : tree) : Prop :=
  match t with
  | NULL => True
  | Node l x r => all_keys P l /\ P (key x) /\ all_keys P r
  end.

Fixpoint bst (t : tree) : Prop :=
  match t with
  | NULL => True
  | Node l x r =>
      bst l /\ bst r /\
      all_keys (fun k => k < key x) l /\ all_keys (fun k => key x < k) r
  end.

(** A node without its balance bookkeeping. *)
Definition forget (x : RBNode) : RBNode := set_hgt x 0.

(** The nodes in key order of the walk left, node, right. *)
Fixpoint inorder (t : tree) : list RBNode :=
  match t with
  | NULL => []
  | Node l x r => inorder l ++ forget x :: inorder r
  end.

Definition keys (t : tree) : list Z := map key (inorder t).

(** What a caller sees of the entry under [k]. *)
Definition lookup (k : Z) (t : tree) : option (Z * float32 * Z) :=
  match find k t with
  | None => None
  | Some x => Some (val x, confidence x, polarity x)
  end.

(** The balance the code maintains: on the stored heights, where a node
    just linked by [bst_insert] still carries the [0] of [calloc]. *)
Fixpoint avl (M : Z) (t : tree) : Prop :=
  match t with
  | NULL => True
  | Node l x r =>
      avl M l /\ avl M r /\
      -1 <= height l - height r <= 1 /\
      0 <= hgt x <= M /\
      (hgt x = 1 + Z.max (height l) (height r) \/
       (hgt x = 0 /\ l = NULL /\ r = NULL))
  end.

Definition uint32_range (k : Z) : Prop := 0 <= k < 4294967296.

(** The invariant of the tree under [rb_root]. *)
Definition index_ok (t : tree) : Prop :=
  bst t /\ all_keys uint32_range t /\ avl 45 t.

(** ** Vocabulary of the proofs *)

(** The node [rb_insert] allocates. *)
Definition new_node (k v : Z) (conf : float32) (pol : Z) (t : tree) : RBNode :=
  mkRBNode k v pol conf (match t with NULL => 0 | _ => 1 end) 0.

Definition has_key (k : Z) (x : RBNode) : bool := key x =? k.

Definition sibling (f : frame) : tree :=
  match f with
  | LeftOf _ r => r
  | RightOf l _ => l
  end.

(** The parents above a subtree whose stored height was [hold] before
    the insertion: every one of them was balanced then, with a stored
    height below the bound. *)
Inductive ctx_ok (M : Z) : Z -> list frame -> Prop :=
| ctx_ok_nil (hold : Z) : ctx_ok M hold []
| ctx_ok_cons (hold : Z) (f : frame) (up : list frame) :
    avl M (sibling f) ->
    -1 <= hold - height (sibling f) <= 1 ->
    1 + Z.max hold (height (sibling f)) < M ->
    ctx_ok M (1 + Z.max hold (height (sibling f))) up ->
    ctx_ok M hold (f :: up).

(** The node under the cursor when an iteration of [rebalance_up]
    starts: its children are balanced, and the height the iteration is
    about to store is the old one or one more, the imbalance two only in
    the second case. *)
Definition ready (M hold : Z) (n : tree) : Prop :=
  match n with
  | NULL => False
  | Node l _ r =>
      avl M l /\ avl M r /\ 0 <= hold < M /\
      ((-1 <= height l - height r <= 1 /\
        hold <= 1 + Z.max (height l) (height r) <= hold + 1) \/
       ((height l - height r = 2 \/ height l - height r = -2) /\
        1 + Z.max (height l) (height r) = hold + 1))
  end.

(** A balanced node that stands where a subtree of stored height [hold]
    stood. *)
Definition settled (M hold : Z) (n : tree) : Prop :=
  avl M n /\ 1 <= height n /\ hold <= height n <= hold + 1 /\ 0 <= hold < M.

(** The least number of nodes under a stored height. *)
Fixpoint min_size (h : nat) : Z :=
  match h with
  | O => 0
  | S h' =>
      match h' with
      | O => 1
      | S h'' => 1 + min_size h' + min_size h''
      end
  end.

(** [min_size] two heights at a time, for evaluation. *)
Fixpoint min_sizes (h : nat) : Z * Z :=
  match h with
  | O => (0, 1)
  | S h' => let (a, b) := min_sizes h' in (b, 1 + b + a)
  end.

(** The polarity of the entry once the call has written its argument. *)
Definition polarity_after (x : RBNode) (pol : Z) : Z :=
  if pol =? 0 then polarity x else pol.


(** The index after [encode([0x41, 0x42], true)]: one Positive entry
    under key 1. *)
Definition sample : state :=
  mkState (Node NULL (mkRBNode 1 12 POLARITY_POS f32_one 0 1) NULL)
          (fun _ => 0).


(** An index whose one entry is under the key 9. *)
Definition far_entry : tree :=
  Node NULL (mkRBNode 9 12 POLARITY_POS f32_one 0 1) NULL.

(** Whether [bst_insert] reaches its last branch, the one that ends in
    [free(node)]: the walk arrives at a node with the key of [node]. *)
Fixpoint bst_insert_frees (root : tree) (node : RBNode) : bool :=
  match root with
  | NULL => false
  | Node l x r =>
      if key node <? key x then bst_insert_frees l node
      else if key node >? key x then bst_insert_frees r node
      else true
  end.

(** 0.9 and 0.4 as binary32 values. *)
Definition f32_0_9 : float32 := S754_finite false 15099494 (-24).
Definition f32_0_4 : float32 := S754_finite false 13421773 (-25).

(** A node with its payload blanked: key, colour and stored height
    stay. *)
Definition blank (x : RBNode) : RBNode :=
  mkRBNode (key x) 0 0 f32_zero (color x) (hgt x).

Fixpoint skeleton (t : tree) : tree :=
  match t with
  | NULL => NULL
  | Node l x r => Node (skeleton l) (blank x) (skeleton r)
  end.

(** The positions a call that starts after [n0] bytes gives to [len]
    output bytes. *)
Definition in_window (n0 : Z) (len : nat) (k : Z) : bool :=
  (n0 <? k) && (k <=? n0 + Z.of_nat len).

(** C1 as the specification states it, for a file read by [rift_open]
    into the empty index: the [i]-th byte of the whole output is the
    entry under the key [i + 1]. *)
Definition running_position_keys (file : list Z) (out_cap : Z)
  (polarity_A : bool) : Prop :=
  forall total out t,
    rift_open (Some file) out_cap polarity_A NULL = Some (total, out, t) ->
    forall i, (i < List.length out)%nat ->
      lookup (Z.of_nat i + 1) t = Some (nth i out 0, f32_one, tag polarity_A).

(** The tree with every node relabelled by [f]. *)
Fixpoint relabel (f : RBNode -> RBNode) (t : tree) : tree :=
  match t with
  | NULL => NULL
  | Node l x r => Node (relabel f l) (f x) (relabel f r)
  end.

Definition relabel_frame (f : RBNode -> RBNode) (fr : frame) : frame :=
  match fr with
  | LeftOf p r => LeftOf (f p) (relabel f r)
  | RightOf l p => RightOf (relabel f l) (f p)
  end.

(** The tree with the polarity tag of every node erased. *)
Definition unpolarised (t : tree) : tree :=
  relabel (fun x => set_polarity x 0) t.

Definition strip (r : list Z * Z * tree) : list Z * Z * tree :=
  let '(out, n, t) := r in (out, n, unpolarised t).

(** Every node has children whose heights, as shapes, differ by at
    most [d]. *)
Fixpoint balanced_within (d : Z) (t : tree) : Prop :=
  match t with
  | NULL => True
  | Node l _ r =>
      balanced_within d l /\ balanced_within d r /\
      - d <= true_height l - true_height r <= d
  end.

(** A tree of two nodes: key 1 at the root, key 2 to its right. *)
Definition two_nodes : tree :=
  Node NULL (mkRBNode 1 0 POLARITY_POS f32_zero 0 1)
       (Node NULL (mkRBNode 2 8 POLARITY_POS f32_one 1 0) NULL).

(** The bytes [rift_encode] writes, without the index. *)
Fixpoint encode_bytes (polarity_A : bool) (in_ : list Z) : list Z :=
  match in_ with
  | [] => []
  | a :: in1 =>
      logical polarity_A a (match in1 with [] => 0 | b :: _ => b end)
      :: match in1 with
         | [] => []
         | _ :: in2 => encode_bytes polarity_A in2
         end
  end.

(** The input with the two bytes of every pair exchanged. *)
Fixpoint swap_pairs (in_ : list Z) : list Z :=
  match in_ with
  | [] => []
  | a :: in1 =>
      match in1 with
      | [] => [a]
      | b :: in2 => b :: a :: swap_pairs in2
      end
  end.

(** The 256 values of a byte. *)
Definition all_bytes : list Z := map Z.of_nat (seq 0 256).

(** * Proofs *)

(** ** Machine arithmetic *)

Lemma uint8_small (x : Z) : 0 <= x < 256 -> uint8 x = x.
Proof. intros H. unfold uint8. apply Z.mod_small. exact H. Qed.

Lemma uint32_small (x : Z) : uint32_range x -> uint32 x = x.
Proof. intros H. unfold uint32. apply Z.mod_small. exact H. Qed.

Lemma uint32_in_range (x : Z) : uint32_range (uint32 x).
Proof. unfold uint32_range, uint32. apply Z.mod_pos_bound. lia. Qed.

Lemma max_if (a b : Z) : (if a >? b then a else b) = Z.max a b.
Proof. destruct (Z.gtb_spec a b); lia. Qed.

(** ** Keys in order *)

Lemma all_keys_Forall (P : Z -> Prop) (t : tree) :
  all_keys P t <-> Forall P (keys t).
Proof.
  unfold keys. induction t as [|l IHl x r IHr]; simpl.
  - split; auto.
  - rewrite map_app, Forall_app. simpl. rewrite Forall_cons_iff.
    rewrite IHl, IHr. tauto.
Qed.

Lemma all_keys_weaken (P Q : Z -> Prop) (t : tree) :
  (forall k, P k -> Q k) -> all_keys P t -> all_keys Q t.
Proof.
  intros PQ. induction t as [|l IHl x r IHr]; simpl; [auto|].
  intros (Hl & Hx & Hr). auto.
Qed.

Lemma sorted_app (l r : list Z) (x : Z) :
  StronglySorted Z.lt (l ++ x :: r) <->
  StronglySorted Z.lt l /\ StronglySorted Z.lt r /\
  Forall (fun k => k < x) l /\ Forall (fun k => x < k) r.
Proof.
  induction l as [|a l IH]; simpl.
  - split.
    + intros H. inversion H; subst. repeat split; auto. constructor.
    + intros (_ & Hr & _ & Hx). constructor; auto.
  - split.
    + intros H. inversion H as [|? ? Hs Ha]; subst.
      apply IH in Hs. destruct Hs as (Hl & Hr & Hlx & Hxr).
      apply Forall_app in Ha. destruct Ha as (Hal & Hax).
      inversion Hax; subst.
      split; [constructor; assumption|].
      split; [assumption|].
      split; [constructor; assumption | assumption].
    + intros (Hl & Hr & Hlx & Hxr).
      inversion Hl as [|? ? Hl' Hal]; subst.
      inversion Hlx as [|? ? Hax Hlx']; subst.
      constructor.
      * apply IH. auto.
      * apply Forall_app. split; [exact Hal|].
        constructor; [exact Hax|].
        eapply Forall_impl; [|exact Hxr]. simpl. intros. lia.
Qed.

Lemma bst_sorted (t : tree) : bst t <-> StronglySorted Z.lt (keys t).
Proof.
  induction t as [|l IHl x r IHr].
  - simpl. split; [constructor | auto].
  - change (keys (Node l x r)) with (map key (inorder l ++ forget x :: inorder r)).
    rewrite map_app. simpl map.
    change (map key (inorder l)) with (keys l).
    change (map key (inorder r)) with (keys r).
    rewrite sorted_app. simpl bst.
    rewrite IHl, IHr, !all_keys_Forall. tauto.
Qed.

Lemma keys_inorder_eq (t t' : tree) : inorder t = inorder t' -> keys t = keys t'.
Proof. unfold keys. intros ->. reflexivity. Qed.

Lemma bst_inorder_eq (t t' : tree) : inorder t = inorder t' -> bst t -> bst t'.
Proof.
  intros E. rewrite !bst_sorted, (keys_inorder_eq _ _ E). auto.
Qed.

Lemma all_keys_inorder_eq (P : Z -> Prop) (t t' : tree) :
  inorder t = inorder t' -> all_keys P t -> all_keys P t'.
Proof.
  intros E. rewrite !all_keys_Forall, (keys_inorder_eq _ _ E). auto.
Qed.

(** ** Rotations keep the nodes in order *)

Lemma forget_set_hgt (x : RBNode) (h : Z) : forget (set_hgt x h) = forget x.
Proof. reflexivity. Qed.

Lemma inorder_update_height (n : tree) : inorder (update_height n) = inorder n.
Proof. destruct n; reflexivity. Qed.

Lemma inorder_rotate_left (x : tree) : inorder (rotate_left x) = inorder x.
Proof.
  destruct x as [|a xn [|b yn c]]; try reflexivity.
  simpl. rewrite !forget_set_hgt, <- app_assoc. reflexivity.
Qed.

Lemma inorder_rotate_right (x : tree) : inorder (rotate_right x) = inorder x.
Proof.
  destruct x as [|[|a yn b] xn c]; try reflexivity.
  simpl. rewrite !forget_set_hgt, <- app_assoc. reflexivity.
Qed.

Lemma inorder_set_left (n l : tree) :
  inorder l = inorder (left n) -> inorder (set_left n l) = inorder n.
Proof. destruct n; simpl; [reflexivity|]. intros ->. reflexivity. Qed.

Lemma inorder_set_right (n r : tree) :
  inorder r = inorder (right n) -> inorder (set_right n r) = inorder n.
Proof. destruct n; simpl; [reflexivity|]. intros ->. reflexivity. Qed.

Lemma inorder_attach (f : frame) (n n' : tree) :
  inorder n = inorder n' -> inorder (attach f n) = inorder (attach f n').
Proof. destruct f; simpl; intros ->; reflexivity. Qed.

Lemma inorder_plug (up : list frame) (n n' : tree) :
  inorder n = inorder n' -> inorder (plug n up) = inorder (plug n' up).
Proof.
  revert n n'. induction up as [|f up IH]; intros n n' E; simpl.
  - exact E.
  - apply IH, inorder_attach, E.
Qed.

Lemma rebalance_up_inorder (fuel : nat) (n : tree) (up : list frame) (t : tree) :
  rebalance_up fuel n up = Some t -> inorder t = inorder (plug n up).
Proof.
  revert n up. induction fuel as [|fuel IH]; intros n up.
  - destruct n; simpl; [|discriminate]. intros [= <-]. reflexivity.
  - destruct n as [|l x r]; [simpl; intros [= <-]; reflexivity|].
    cbn [rebalance_up].
    set (n1 := update_height (Node l x r)).
    assert (E1 : inorder n1 = inorder (Node l x r))
      by apply inorder_update_height.
    destruct (bf n1 >? 1).
    + intros H. apply IH in H. rewrite H. apply inorder_plug.
      rewrite inorder_rotate_right.
      destruct (bf (left n1) <? 0); [|exact E1].
      rewrite inorder_set_left; [exact E1 | apply inorder_rotate_left].
    + destruct (bf n1 <? -1).
      * intros H. apply IH in H. rewrite H. apply inorder_plug.
        rewrite inorder_rotate_left.
        destruct (bf (right n1) >? 0); [|exact E1].
        rewrite inorder_set_right; [exact E1 | apply inorder_rotate_right].
      * destruct up as [|f up'].
        -- intros [= <-]. exact E1.
        -- intros H. apply IH in H. rewrite H.
           change (plug (Node l x r) (f :: up')) with (plug (attach f (Node l x r)) up').
           apply inorder_plug, inorder_attach, E1.
Qed.

(** ** Lookup through the order *)

Lemma all_keys_inorder (P : Z -> Prop) (t : tree) :
  all_keys P t <-> Forall (fun x => P (key x)) (inorder t).
Proof.
  rewrite all_keys_Forall. unfold keys. rewrite Forall_map. reflexivity.
Qed.

Lemma list_find_none (k : Z) (l : list RBNode) :
  Forall (fun x => key x <> k) l -> List.find (has_key k) l = None.
Proof.
  induction 1 as [|x l Hx _ IH]; simpl; [reflexivity|].
  unfold has_key at 1. destruct (Z.eqb_spec (key x) k); [contradiction | exact IH].
Qed.

Lemma list_find_app (k : Z) (l r : list RBNode) :
  List.find (has_key k) (l ++ r) =
  match List.find (has_key k) l with
  | Some x => Some x
  | None => List.find (has_key k) r
  end.
Proof.
  induction l as [|x l IH]; simpl; [reflexivity|].
  destruct (has_key k x); [reflexivity | exact IH].
Qed.

Lemma find_inorder (k : Z) (t : tree) :
  bst t -> option_map forget (find k t) = List.find (has_key k) (inorder t).
Proof.
  induction t as [|l IHl x r IHr]; simpl; [reflexivity|].
  intros (Bl & Br & Hl & Hr).
  rewrite list_find_app. simpl. unfold has_key at 2. simpl.
  rewrite all_keys_inorder in Hl, Hr.
  destruct (Z.eqb_spec k (key x)) as [->|Hne].
  - rewrite Z.eqb_refl. rewrite list_find_none; [reflexivity|].
    eapply Forall_impl; [|exact Hl]. simpl. intros. lia.
  - destruct (Z.eqb_spec (key x) k) as [E|_]; [congruence|].
    destruct (Z.ltb_spec k (key x)) as [Hlt|Hge].
    + rewrite IHl by assumption.
      destruct (List.find (has_key k) (inorder l)); [reflexivity|].
      symmetry. apply list_find_none.
      eapply Forall_impl; [|exact Hr]. simpl. intros. lia.
    + rewrite IHr by assumption.
      rewrite (list_find_none k (inorder l)); [reflexivity|].
      eapply Forall_impl; [|exact Hl]. simpl. intros. lia.
Qed.

Lemma lookup_forget (k : Z) (t : tree) :
  lookup k t =
  match option_map forget (find k t) with
  | None => None
  | Some x => Some (val x, confidence x, polarity x)
  end.
Proof. unfold lookup. destruct (find k t); reflexivity. Qed.

Lemma lookup_inorder_eq (k : Z) (t t' : tree) :
  bst t -> inorder t = inorder t' -> lookup k t = lookup k t'.
Proof.
  intros B E. assert (B' : bst t') by (eapply bst_inorder_eq; eauto).
  rewrite !lookup_forget, !find_inorder, E by assumption. reflexivity.
Qed.


Lemma find_none_keys (k : Z) (t : tree) :
  bst t -> (find k t = None <-> ~ In k (keys t)).
Proof.
  intros B. pose proof (find_inorder k t B) as E.
  unfold keys. split.
  - intros N. rewrite N in E. simpl in E. symmetry in E.
    intros HI. apply in_map_iff in HI. destruct HI as (x & Hk & Hx).
    eapply find_none in E; [|exact Hx]. unfold has_key in E. lia.
  - intros N. destruct (find k t) as [y|] eqn:F; [|reflexivity].
    exfalso. apply N. simpl in E. symmetry in E. apply find_some in E.
    destruct E as (HI & Hk). unfold has_key in Hk.
    apply in_map_iff. exists (forget y). split; [lia | exact HI].
Qed.

(** ** [bst_insert] *)

Lemma all_keys_update_height (P : Z -> Prop) (n : tree) :
  all_keys P (update_height n) <-> all_keys P n.
Proof. destruct n; simpl; tauto. Qed.

Lemma bst_update_height (n : tree) : bst (update_height n) <-> bst n.
Proof. destruct n; simpl; tauto. Qed.

Lemma all_keys_bst_insert (P : Z -> Prop) (t : tree) (n : RBNode) :
  all_keys P (bst_insert t n) <-> all_keys P t /\ P (key n).
Proof.
  induction t as [|l IHl x r IHr]; cbn [bst_insert].
  - simpl. tauto.
  - destruct (Z.ltb_spec (key n) (key x)).
    + rewrite all_keys_update_height. simpl. rewrite IHl. tauto.
    + destruct (Z.gtb_spec (key n) (key x)).
      * rewrite all_keys_update_height. simpl. rewrite IHr. tauto.
      * simpl. assert (key n = key x) as -> by lia. tauto.
Qed.

Lemma bst_bst_insert (t : tree) (n : RBNode) : bst t -> bst (bst_insert t n).
Proof.
  induction t as [|l IHl x r IHr]; cbn [bst_insert]; [simpl; tauto|].
  intros (Bl & Br & Hl & Hr).
  destruct (Z.ltb_spec (key n) (key x)).
  - rewrite bst_update_height. simpl. rewrite all_keys_bst_insert. tauto.
  - destruct (Z.gtb_spec (key n) (key x)).
    + rewrite bst_update_height. simpl. rewrite all_keys_bst_insert.
      repeat split; auto; lia.
    + simpl. tauto.
Qed.

Lemma find_bst_insert (k : Z) (t : tree) (n : RBNode) :
  option_map forget (find k (bst_insert t n)) =
  if k =? key n
  then Some (forget match find k t with
                    | Some x => overwrite x n
                    | None => n
                    end)
  else option_map forget (find k t).
Proof.
  induction t as [|l IHl x r IHr]; simpl.
  - rewrite Z.eqb_refl || idtac.
    destruct (Z.eqb_spec k (key n)); [reflexivity|].
    destruct (k <? key n); reflexivity.
  - destruct (Z.ltb_spec (key n) (key x)) as [Hlt|Hge].
    + simpl. destruct (Z.eqb_spec k (key x)) as [->|Hk].
      * destruct (Z.eqb_spec (key x) (key n)); [lia | reflexivity].
      * destruct (k <? key x) eqn:Hkx; [exact IHl|].
        destruct (Z.eqb_spec k (key n)); [|reflexivity].
        apply Z.ltb_ge in Hkx. lia.
    + destruct (Z.gtb_spec (key n) (key x)) as [Hgt|Hle].
      * simpl. destruct (Z.eqb_spec k (key x)) as [->|Hk].
        -- destruct (Z.eqb_spec (key x) (key n)); [lia | reflexivity].
        -- destruct (k <? key x) eqn:Hkx; [|exact IHr].
           destruct (Z.eqb_spec k (key n)); [|reflexivity].
           apply Z.ltb_lt in Hkx. lia.
      * assert (E : key n = key x) by lia. simpl. rewrite E.
        destruct (Z.eqb_spec k (key x)); [reflexivity|].
        destruct (k <? key x); reflexivity.
Qed.

Lemma size_bst_insert (t : tree) (n : RBNode) :
  size (bst_insert t n) =
  size t + match find (key n) t with Some _ => 0 | None => 1 end.
Proof.
  induction t as [|l IHl x r IHr]; simpl; [reflexivity|].
  destruct (Z.ltb_spec (key n) (key x)).
  - destruct (Z.eqb_spec (key n) (key x)); [lia|]. simpl. rewrite IHl. lia.
  - destruct (Z.gtb_spec (key n) (key x)).
    + destruct (Z.eqb_spec (key n) (key x)); [lia|]. simpl. rewrite IHr. lia.
    + destruct (Z.eqb_spec (key n) (key x)); [|lia]. simpl. lia.
Qed.

Lemma parents_plug (k : Z) (t : tree) (acc : list frame) :
  plug (fst (parents k t acc)) (snd (parents k t acc)) = plug t acc.
Proof.
  revert acc. induction t as [|l IHl x r IHr]; intros acc; simpl.
  - reflexivity.
  - destruct (k <? key x); [rewrite IHl; reflexivity|].
    destruct (k >? key x); [rewrite IHr; reflexivity|].
    reflexivity.
Qed.

(** ** The balance on stored heights *)

Lemma avl_height (M : Z) (t : tree) : avl M t -> 0 <= M -> 0 <= height t <= M.
Proof. destruct t; simpl; [lia | tauto]. Qed.

Lemma avl_mono (M M' : Z) (t : tree) : M <= M' -> avl M t -> avl M' t.
Proof.
  intros HM. induction t as [|l IHl x r IHr]; simpl; [auto|].
  intros (Hl & Hr & Hb & Hx & Hc).
  split; [auto|]. split; [auto|]. split; [lia|]. split; [lia|]. exact Hc.
Qed.

Lemma update_height_node (l r : tree) (x : RBNode) :
  0 <= height l -> 0 <= height r ->
  1 + Z.max (height l) (height r) <= 255 ->
  update_height (Node l x r) =
  Node l (set_hgt x (1 + Z.max (height l) (height r))) r.
Proof.
  intros Hl Hr HM. unfold update_height. rewrite max_if.
  rewrite uint8_small by lia. reflexivity.
Qed.

Lemma avl_node (M : Z) (l r : tree) (x : RBNode) (h : Z) :
  avl M l -> avl M r -> -1 <= height l - height r <= 1 ->
  h = 1 + Z.max (height l) (height r) -> h <= M -> 0 <= M ->
  avl M (Node l (set_hgt x h) r).
Proof.
  intros Hl Hr Hb -> Hh HM. cbn [avl hgt set_hgt].
  pose proof (avl_height _ _ Hl HM). pose proof (avl_height _ _ Hr HM).
  split; [exact Hl|]. split; [exact Hr|]. split; [exact Hb|].
  split; [lia|]. left. reflexivity.
Qed.

(** A subtree of positive stored height is a node whose height is the
    one [update_height] computes. *)
Lemma avl_inv (M : Z) (t : tree) :
  avl M t -> 1 <= height t ->
  exists l x r, t = Node l x r /\ avl M l /\ avl M r /\
    -1 <= height l - height r <= 1 /\
    hgt x = 1 + Z.max (height l) (height r) /\ hgt x <= M.
Proof.
  destruct t as [|l x r]; simpl; [lia|].
  intros (Hl & Hr & Hb & Hx & [Hc|(Hc & _)]) Hh; [|lia].
  exists l, x, r. repeat split; auto; lia.
Qed.

Lemma update_height_settled (M : Z) (n : tree) :
  avl M n -> 1 <= height n -> 0 <= M <= 255 -> update_height n = n.
Proof.
  intros Hn Hh HM.
  destruct (avl_inv _ _ Hn Hh) as (l & x & r & -> & Hl & Hr & Hb & Hx & HxM).
  unfold update_height. rewrite max_if, <- Hx, uint8_small by (simpl in Hh; lia).
  destruct x; reflexivity.
Qed.

Lemma ready_attach (M hold : Z) (n : tree) (f : frame) (up : list frame) :
  settled M hold n -> ctx_ok M hold (f :: up) ->
  ready M (1 + Z.max hold (height (sibling f))) (attach f n) /\
  ctx_ok M (1 + Z.max hold (height (sibling f))) up.
Proof.
  intros (Hn & H1 & Hh & HM) Hc. inversion Hc as [|? ? ? Hs Hb Hlt Hup]; subst.
  split; [|exact Hup].
  pose proof (avl_height _ _ Hs ltac:(lia)).
  pose proof (avl_height _ _ Hn ltac:(lia)).
  unfold ready.
  destruct f as [p s|s p]; cbn [attach sibling] in *;
    (split; [assumption|]); (split; [assumption|]); lia.
Qed.

Lemma settled_balanced (M hold : Z) (l r : tree) (x : RBNode) :
  ready M hold (Node l x r) -> -1 <= height l - height r <= 1 -> M <= 255 ->
  settled M hold (update_height (Node l x r)).
Proof.
  intros (Hl & Hr & HM & H) Hb HM'.
  assert (Hh : hold <= 1 + Z.max (height l) (height r) <= hold + 1)
    by (destruct H as [(_ & ?)|(? & ?)]; lia).
  pose proof (avl_height _ _ Hl ltac:(lia)).
  pose proof (avl_height _ _ Hr ltac:(lia)).
  unfold settled, update_height. rewrite max_if, uint8_small by lia.
  cbn [avl height hgt set_hgt].
  repeat match goal with |- _ /\ _ => split end; auto; lia.
Qed.

Ltac heights :=
  repeat match goal with
         | H : avl ?M ?t |- _ =>
             lazymatch goal with
             | _ : 0 <= height t <= M |- _ => fail
             | _ => pose proof (avl_height M t H ltac:(lia))
             end
         end.

Ltac restore_height :=
  match goal with
  | |- context [update_height (Node ?l ?x ?r)] =>
      lazymatch l with
      | context [update_height] => fail
      | _ =>
          lazymatch r with
          | context [update_height] => fail
          | _ =>
              rewrite (update_height_node l r x)
                by (cbn [height hgt set_hgt]; lia)
          end
      end
  end;
  cbn [height hgt set_hgt].

Ltac avl_nodes :=
  repeat (apply avl_node; cbn [height hgt set_hgt];
          [ try assumption | try assumption | lia | lia | lia | lia ]).

Lemma rotate_settled_left (M hold : Z) (l r : tree) (x : RBNode) :
  ready M hold (Node l x r) -> height l - height r = 2 -> M <= 255 ->
  settled M hold
    (rotate_right
       (if bf (left (update_height (Node l x r))) <? 0
        then set_left (update_height (Node l x r))
                      (rotate_left (left (update_height (Node l x r))))
        else update_height (Node l x r))).
Proof.
  intros (Hl & Hr & HM & H) Hb HM'.
  assert (Hn : 1 + Z.max (height l) (height r) = hold + 1) by lia.
  heights.
  destruct (avl_inv _ _ Hl ltac:(lia))
    as (a & y & b & -> & Ha & Hb' & Hab & Hy & HyM).
  cbn [height] in *. heights.
  restore_height. cbn [left set_left bf].
  destruct (Z.ltb_spec (height a - height b) 0) as [Hneg|Hpos].
  - destruct (avl_inv _ _ Hb' ltac:(lia))
      as (b1 & z & b2 & -> & Hb1 & Hb2 & Hbb & Hz & HzM).
    cbn [height] in *. heights.
    cbn [rotate_left]. do 2 restore_height.
    cbn [rotate_right]. do 2 restore_height.
    unfold settled. cbn [height hgt set_hgt].
    split; [|lia]. avl_nodes.
  - cbn [rotate_right]. do 2 restore_height.
    unfold settled. cbn [height hgt set_hgt].
    split; [|lia]. avl_nodes.
Qed.

Lemma rotate_settled_right (M hold : Z) (l r : tree) (x : RBNode) :
  ready M hold (Node l x r) -> height l - height r = -2 -> M <= 255 ->
  settled M hold
    (rotate_left
       (if bf (right (update_height (Node l x r))) >? 0
        then set_right (update_height (Node l x r))
                       (rotate_right (right (update_height (Node l x r))))
        else update_height (Node l x r))).
Proof.
  intros (Hl & Hr & HM & H) Hb HM'.
  assert (Hn : 1 + Z.max (height l) (height r) = hold + 1) by lia.
  heights.
  destruct (avl_inv _ _ Hr ltac:(lia))
    as (a & y & b & -> & Ha & Hb' & Hab & Hy & HyM).
  cbn [height] in *. heights.
  restore_height. cbn [right set_right bf].
  destruct (Z.gtb_spec (height a - height b) 0) as [Hpos|Hneg].
  - destruct (avl_inv _ _ Ha ltac:(lia))
      as (a1 & z & a2 & -> & Ha1 & Ha2 & Haa & Hz & HzM).
    cbn [height] in *. heights.
    cbn [rotate_right]. do 2 restore_height.
    cbn [rotate_left]. do 2 restore_height.
    unfold settled. cbn [height hgt set_hgt].
    split; [|lia]. avl_nodes.
  - cbn [rotate_left]. do 2 restore_height.
    unfold settled. cbn [height hgt set_hgt].
    split; [|lia]. avl_nodes.
Qed.

(** ** [rebalance_up] leaves its loop *)

Lemma rebalance_up_settled_step (M hold : Z) (n : tree) (up : list frame)
  (fuel : nat) :
  settled M hold n -> M <= 255 ->
  rebalance_up (S fuel) n up =
  match up with
  | [] => Some n
  | f :: up' => rebalance_up fuel (attach f n) up'
  end.
Proof.
  intros (Hn & H1 & Hh & HM) HM'.
  destruct (avl_inv _ _ Hn H1) as (l & x & r & E & Hl & Hr & Hb & Hx & HxM).
  pose proof (update_height_settled M n Hn H1 ltac:(lia)) as U.
  subst n. cbn [rebalance_up]. rewrite U. cbn [bf].
  destruct (Z.gtb_spec (height l - height r) 1); [lia|].
  destruct (Z.ltb_spec (height l - height r) (-1)); [lia|].
  reflexivity.
Qed.

Lemma update_height_idem (n : tree) :
  update_height (update_height n) = update_height n.
Proof. destruct n; reflexivity. Qed.

Lemma rebalance_up_update (fuel : nat) (l r : tree) (x : RBNode)
  (up : list frame) :
  rebalance_up fuel (update_height (Node l x r)) up =
  rebalance_up fuel (Node l x r) up.
Proof.
  destruct fuel as [|fuel]; [reflexivity|].
  change (update_height (Node l x r)) with
    (Node l (set_hgt x (uint8 (1 + (if height l >? height r
                                    then height l else height r)))) r) at 1.
  cbn [rebalance_up]. rewrite <- (update_height_idem (Node l x r)).
  reflexivity.
Qed.

Lemma rebalance_up_unfold (fuel : nat) (l r : tree) (x : RBNode)
  (up : list frame) :
  rebalance_up (S fuel) (Node l x r) up =
  let n := update_height (Node l x r) in
  if height l - height r >? 1 then
    rebalance_up fuel
      (rotate_right (if bf (left n) <? 0
                     then set_left n (rotate_left (left n)) else n)) up
  else if height l - height r <? -1 then
    rebalance_up fuel
      (rotate_left (if bf (right n) >? 0
                    then set_right n (rotate_right (right n)) else n)) up
  else
    match up with
    | [] => Some n
    | f :: up' => rebalance_up fuel (attach f n) up'
    end.
Proof. reflexivity. Qed.

(** An iteration on a [ready] node either moves on as from a settled
    node, or rotates into one. *)
Lemma rebalance_up_ready_step (M hold : Z) (n : tree) (up : list frame)
  (fuel : nat) :
  ready M hold n -> M <= 255 ->
  exists n', settled M hold n' /\
    (rebalance_up (S fuel) n up = rebalance_up (S fuel) n' up \/
     rebalance_up (S fuel) n up = rebalance_up fuel n' up).
Proof.
  intros R HM'. destruct n as [|l x r]; [contradiction|].
  pose proof R as (Hl & Hr & HM & H). heights.
  destruct H as [(Hb & Hh)|([Hb|Hb] & Hh)].
  - exists (update_height (Node l x r)). split.
    + apply settled_balanced; assumption.
    + left. symmetry. apply rebalance_up_update.
  - eexists. split; [apply (rotate_settled_left M hold l r x R Hb HM')|].
    right. rewrite rebalance_up_unfold. cbv zeta.
    destruct (Z.gtb_spec (height l - height r) 1); [reflexivity | lia].
  - eexists. split; [apply (rotate_settled_right M hold l r x R Hb HM')|].
    right. rewrite rebalance_up_unfold. cbv zeta.
    destruct (Z.gtb_spec (height l - height r) 1); [lia|].
    destruct (Z.ltb_spec (height l - height r) (-1)); [reflexivity | lia].
Qed.

Lemma rebalance_up_settled (M : Z) (up : list frame) :
  M <= 255 ->
  forall (hold : Z) (n : tree) (fuel : nat),
    settled M hold n -> ctx_ok M hold up ->
    (2 * List.length up + 1 <= fuel)%nat ->
    exists t, rebalance_up fuel n up = Some t /\ avl M t.
Proof.
  intros HM'. induction up as [|f up IH]; intros hold n fuel S C F.
  - destruct fuel as [|fuel]; [simpl in F; lia|].
    rewrite (rebalance_up_settled_step M hold) by assumption.
    exists n. split; [reflexivity | apply S].
  - destruct fuel as [|fuel]; [simpl in F; lia|].
    rewrite (rebalance_up_settled_step M hold) by assumption.
    destruct (ready_attach M hold n f up S C) as (R & C').
    destruct fuel as [|fuel]; [simpl in F; lia|].
    destruct (rebalance_up_ready_step M _ _ up fuel R HM')
      as (n' & S' & [E|E]); rewrite E.
    + apply (IH _ _ _ S' C'). simpl in F |- *. lia.
    + apply (IH _ _ _ S' C'). simpl in F |- *. lia.
Qed.

Lemma rebalance_up_ready (M hold : Z) (n : tree) (up : list frame)
  (fuel : nat) :
  M <= 255 -> ready M hold n -> ctx_ok M hold up ->
  (2 * List.length up + 2 <= fuel)%nat ->
  exists t, rebalance_up fuel n up = Some t /\ avl M t.
Proof.
  intros HM' R C F.
  destruct fuel as [|fuel]; [lia|].
  destruct (rebalance_up_ready_step M hold n up fuel R HM')
    as (n' & S' & [E|E]); rewrite E.
  - apply (rebalance_up_settled M up HM' hold); auto. lia.
  - apply (rebalance_up_settled M up HM' hold); auto. lia.
Qed.

(** ** Where [rebalance_up] starts *)

Lemma avl_leaf (M : Z) (n : RBNode) : hgt n = 0 -> 0 <= M -> avl M (Node NULL n NULL).
Proof. intros H HM. cbn [avl height]. rewrite H. repeat split; auto; lia. Qed.

Lemma parents_leaf (n : RBNode) (acc : list frame) :
  parents (key n) (Node NULL n NULL) acc = (Node NULL n NULL, acc).
Proof.
  cbn [parents]. rewrite Z.ltb_irrefl.
  destruct (Z.gtb_spec (key n) (key n)); [lia | reflexivity].
Qed.

Lemma parents_bst_insert (M0 M : Z) (n : RBNode) (t : tree) :
  hgt n = 0 -> 0 <= M0 < M -> M <= 255 ->
  forall acc : list frame,
    avl M0 t -> find (key n) t = None -> ctx_ok M (height t) acc ->
    exists up, parents (key n) (bst_insert t n) acc = (Node NULL n NULL, up) /\
      ((t = NULL /\ up = acc) \/
       exists f up' hold, up = f :: up' /\
         ready M hold (attach f (Node NULL n NULL)) /\ ctx_ok M hold up').
Proof.
  intros Hn HM HM'. induction t as [|l IHl x r IHr]; intros acc A F C.
  - exists acc. split; [apply parents_leaf | left; auto].
  - cbn [find] in F. cbn [avl] in A.
    destruct A as (Al & Ar & Ab & Ax & Ac).
    pose proof (avl_height _ _ Al ltac:(lia)).
    pose proof (avl_height _ _ Ar ltac:(lia)).
    pose proof (avl_mono M0 M l ltac:(lia) Al) as Al'.
    pose proof (avl_mono M0 M r ltac:(lia) Ar) as Ar'.
    cbn [height] in C.
    destruct (Z.eqb_spec (key n) (key x)) as [|Hne]; [discriminate|].
    cbn [bst_insert].
    destruct (Z.ltb_spec (key n) (key x)) as [Hlt|Hge].
    + unfold update_height. cbn [parents key set_hgt].
      destruct (Z.ltb_spec (key n) (key x)) as [_|]; [|lia].
      destruct l as [|ll lx lr].
      * cbn [bst_insert]. rewrite parents_leaf. eexists. split; [reflexivity|].
        right. eexists _, acc, (hgt x). split; [reflexivity|].
        split; [|exact C]. cbn [attach ready height] in *.
        split; [apply avl_leaf; lia|]. split; [exact Ar'|].
        rewrite Hn. destruct Ac as [Ac|(Ac & _ & ->)]; cbn [height] in *; lia.
      * destruct Ac as [Ac|(_ & Ac & _)]; [|discriminate].
        match goal with
        | |- context [parents _ _ (?f :: acc)] =>
            assert (C' : ctx_ok M (height (Node ll lx lr)) (f :: acc))
        end.
        { constructor; cbn [sibling]; try assumption; try lia.
          rewrite <- Ac. exact C. }
        destruct (IHl _ Al F C') as (up & E & [(Z0 & _)|R]); [discriminate|].
        rewrite E. exists up. split; [reflexivity|]. right. exact R.
    + destruct (Z.gtb_spec (key n) (key x)) as [Hgt|]; [|lia].
      unfold update_height. cbn [parents key set_hgt].
      destruct (Z.ltb_spec (key n) (key x)) as [|_]; [lia|].
      destruct (Z.gtb_spec (key n) (key x)) as [_|]; [|lia].
      destruct r as [|rl rx rr].
      * cbn [bst_insert]. rewrite parents_leaf. eexists. split; [reflexivity|].
        right. eexists _, acc, (hgt x). split; [reflexivity|].
        split; [|exact C]. cbn [attach ready height] in *.
        split; [exact Al'|]. split; [apply avl_leaf; lia|].
        rewrite Hn. destruct Ac as [Ac|(Ac & -> & _)]; cbn [height] in *; lia.
      * destruct Ac as [Ac|(_ & _ & Ac)]; [|discriminate].
        match goal with
        | |- context [parents _ _ (?f :: acc)] =>
            assert (C' : ctx_ok M (height (Node rl rx rr)) (f :: acc))
        end.
        { constructor; cbn [sibling]; try assumption; try lia.
          replace (1 + Z.max (height (Node rl rx rr)) (height l))
            with (hgt x) by lia. exact C. }
        destruct (IHr _ Ar F C') as (up & E & [(Z0 & _)|R]); [discriminate|].
        rewrite E. exists up. split; [reflexivity|]. right. exact R.
Qed.

(** ** Inserting a key the tree already has *)

Lemma bst_insert_present_avl (M : Z) (n : RBNode) (t : tree) :
  0 <= M < 255 -> avl M t -> find (key n) t <> None ->
  avl M (bst_insert t n) /\ height (bst_insert t n) = height t.
Proof.
  intros HM. induction t as [|l IHl x r IHr]; intros A F.
  - contradiction.
  - cbn [find] in F. cbn [avl] in A.
    destruct A as (Al & Ar & Ab & Ax & Ac).
    pose proof (avl_height _ _ Al ltac:(lia)).
    pose proof (avl_height _ _ Ar ltac:(lia)).
    cbn [bst_insert].
    destruct (Z.eqb_spec (key n) (key x)) as [E|Hne].
    + destruct (Z.ltb_spec (key n) (key x)); [lia|].
      destruct (Z.gtb_spec (key n) (key x)); [lia|].
      cbn [avl height overwrite hgt]. repeat split; auto; lia.
    + destruct (Z.ltb_spec (key n) (key x)) as [Hlt|Hge].
      * destruct l as [|ll lx lr]; [contradiction|].
        destruct Ac as [Ac|(_ & Ac & _)]; [|discriminate].
        destruct (IHl Al F) as (Al' & El).
        rewrite update_height_node by lia.
        cbn [height hgt set_hgt]. split; [|lia].
        apply avl_node; try assumption; lia.
      * destruct (Z.gtb_spec (key n) (key x)); [|lia].
        destruct r as [|rl rx rr]; [contradiction|].
        destruct Ac as [Ac|(_ & _ & Ac)]; [|discriminate].
        destruct (IHr Ar F) as (Ar' & Er).
        rewrite update_height_node by lia.
        cbn [height hgt set_hgt]. split; [|lia].
        apply avl_node; try assumption; lia.
Qed.

(** ** Stored heights stay far below the width of the field *)

Lemma min_size_step (h : nat) :
  min_size (S (S h)) = 1 + min_size (S h) + min_size h.
Proof. reflexivity. Qed.

Lemma min_size_nonneg (h : nat) : 0 <= min_size h /\ 0 <= min_size (S h).
Proof.
  induction h as [|h IH]; [simpl; lia|].
  rewrite min_size_step. lia.
Qed.

Lemma min_size_mono (h h' : nat) : (h <= h')%nat -> min_size h <= min_size h'.
Proof.
  induction 1 as [|h' _ IH]; [lia|].
  destruct h' as [|h'']; [simpl in *; lia|].
  rewrite min_size_step. pose proof (min_size_nonneg h''). lia.
Qed.

Lemma size_nonneg (t : tree) : 0 <= size t.
Proof. induction t; simpl; lia. Qed.

Lemma avl_min_size (M : Z) (t : tree) :
  0 <= M -> avl M t -> min_size (Z.to_nat (height t)) <= size t.
Proof.
  intros HM. induction t as [|l IHl x r IHr]; intros A.
  - simpl. lia.
  - cbn [avl] in A. destruct A as (Al & Ar & Ab & Ax & Ac).
    specialize (IHl Al). specialize (IHr Ar).
    pose proof (avl_height _ _ Al HM). pose proof (avl_height _ _ Ar HM).
    pose proof (size_nonneg l). pose proof (size_nonneg r).
    cbn [height size].
    destruct Ac as [Ac|(Ac & _)]; [|rewrite Ac; simpl; lia].
    rewrite Ac.
    replace (Z.to_nat (1 + Z.max (height l) (height r)))
      with (S (Nat.max (Z.to_nat (height l)) (Z.to_nat (height r)))) by lia.
    destruct (Nat.max (Z.to_nat (height l)) (Z.to_nat (height r))) as [|m] eqn:Em.
    + simpl. lia.
    + rewrite min_size_step.
      assert (Hl : (m <= Z.to_nat (height l))%nat) by lia.
      assert (Hr : (m <= Z.to_nat (height r))%nat) by lia.
      apply min_size_mono in Hl, Hr.
      destruct (Nat.max_spec (Z.to_nat (height l)) (Z.to_nat (height r)))
        as [(_ & E)|(_ & E)]; rewrite Em in E; rewrite E in *; lia.
Qed.

Lemma min_sizes_spec (h : nat) : min_sizes h = (min_size h, min_size (S h)).
Proof.
  induction h as [|h IH]; [reflexivity|].
  cbn [min_sizes]. rewrite IH, min_size_step. reflexivity.
Qed.

Lemma min_size_fst (h : nat) : min_size h = fst (min_sizes h).
Proof. rewrite min_sizes_spec. reflexivity. Qed.

Lemma min_size_46 : min_size 46 = 4807526975.
Proof. rewrite min_size_fst. vm_compute. reflexivity. Qed.

Lemma avl_height_small (M : Z) (t : tree) :
  0 <= M -> avl M t -> size t <= 4294967296 -> height t <= 45.
Proof.
  intros HM A S. pose proof (avl_min_size M t HM A) as L.
  destruct (Z_le_gt_dec (height t) 45) as [|G]; [assumption|].
  assert (H46 : (46 <= Z.to_nat (height t))%nat) by lia.
  apply min_size_mono in H46. rewrite min_size_46 in H46. lia.
Qed.

Lemma avl_tighten (M : Z) (t : tree) :
  0 <= M -> avl M t -> size t <= 4294967296 -> avl 45 t.
Proof.
  intros HM. induction t as [|l IHl x r IHr]; intros A S; [exact I|].
  pose proof (avl_height_small M _ HM A S) as Hh.
  cbn [avl] in A. destruct A as (Al & Ar & Ab & Ax & Ac).
  pose proof (size_nonneg l). pose proof (size_nonneg r).
  cbn [size] in S. cbn [height] in Hh. cbn [avl].
  split; [apply IHl; [assumption | lia]|].
  split; [apply IHr; [assumption | lia]|].
  split; [exact Ab|]. split; [lia | exact Ac].
Qed.

Lemma all_keys_and (P Q : Z -> Prop) (t : tree) :
  all_keys P t -> all_keys Q t -> all_keys (fun k => P k /\ Q k) t.
Proof.
  induction t as [|l IHl x r IHr]; simpl; [auto|].
  intros (Pl & Px & Pr) (Ql & Qx & Qr). auto.
Qed.

Lemma bst_size (t : tree) (lo hi : Z) :
  bst t -> all_keys (fun k => lo <= k < hi) t -> size t <= Z.max 0 (hi - lo).
Proof.
  revert lo hi. induction t as [|l IHl x r IHr]; intros lo hi B K.
  - simpl. lia.
  - cbn [bst] in B. destruct B as (Bl & Br & Ll & Lr).
    cbn [all_keys] in K. destruct K as (Kl & Kx & Kr).
    assert (Sl : size l <= Z.max 0 (key x - lo)).
    { apply IHl; [assumption|].
      eapply all_keys_weaken; [|apply (all_keys_and _ _ _ Kl Ll)].
      simpl. intros. lia. }
    assert (Sr : size r <= Z.max 0 (hi - (key x + 1))).
    { apply IHr; [assumption|].
      eapply all_keys_weaken; [|apply (all_keys_and _ _ _ Kr Lr)].
      simpl. intros. lia. }
    cbn [size]. lia.
Qed.

Lemma index_size (t : tree) :
  bst t -> all_keys uint32_range t -> size t <= 4294967296.
Proof.
  intros B K. pose proof (bst_size t 0 4294967296 B K). lia.
Qed.

Lemma size_inorder (t : tree) : size t = Z.of_nat (List.length (inorder t)).
Proof.
  induction t as [|l IHl x r IHr]; simpl; [reflexivity|].
  rewrite length_app. simpl. lia.
Qed.

(** ** [rb_insert] on the invariant *)

Lemma rebalance_up_detached (n : RBNode) :
  rebalance_up (climb []) (Node NULL n NULL) [] =
  Some (Node NULL (set_hgt n 1) NULL).
Proof. reflexivity. Qed.

Lemma rb_insert_present (k v : Z) (conf : float32) (pol : Z) (t : tree) :
  find k t <> None ->
  rb_insert k v conf pol t = Some (bst_insert t (new_node k v conf pol t)).
Proof.
  intros F. unfold rb_insert. destruct (find k t); [|contradiction].
  rewrite rebalance_up_detached. reflexivity.
Qed.

Lemma rb_insert_absent (k v : Z) (conf : float32) (pol : Z) (t : tree) :
  find k t = None -> avl 45 t ->
  exists t', rb_insert k v conf pol t = Some t' /\ avl 46 t' /\
    inorder t' = inorder (bst_insert t (new_node k v conf pol t)).
Proof.
  intros F A. unfold rb_insert. rewrite F.
  fold (new_node k v conf pol t). set (n := new_node k v conf pol t).
  destruct (parents_bst_insert 45 46 n t eq_refl ltac:(lia) ltac:(lia) []
              A F (ctx_ok_nil 46 _)) as (up & E & H).
  pose proof (parents_plug (key n) (bst_insert t n) []) as P.
  change (key n) with k in E, P. rewrite E in *. cbn [fst snd] in P.
  destruct H as [(-> & ->)|(f & up' & hold & -> & R & C)].
  - destruct (rebalance_up_ready 46 0 (Node NULL n NULL) [] (climb [])
                ltac:(lia)) as (t' & Ht & At).
    + cbn [ready height]. repeat split; auto; lia.
    + constructor.
    + unfold climb. lia.
    + exists t'. split; [exact Ht|]. split; [exact At|].
      rewrite (rebalance_up_inorder _ _ _ _ Ht), P. reflexivity.
  - destruct (rebalance_up_ready 46 hold _ up' (climb up') ltac:(lia) R C)
      as (t' & Ht & At).
    + unfold climb. lia.
    + exists t'. split; [exact Ht|]. split; [exact At|].
      rewrite (rebalance_up_inorder _ _ _ _ Ht). exact (f_equal inorder P).
Qed.

Theorem rb_insert_ok (k v : Z) (conf : float32) (pol : Z) (t : tree) :
  index_ok t -> uint32_range k ->
  exists t', rb_insert k v conf pol t = Some t' /\ index_ok t' /\
    inorder t' = inorder (bst_insert t (new_node k v conf pol t)).
Proof.
  intros (B & K & A) Hk.
  set (n := new_node k v conf pol t).
  assert (B' : bst (bst_insert t n)) by (apply bst_bst_insert, B).
  assert (K' : all_keys uint32_range (bst_insert t n))
    by (apply all_keys_bst_insert; split; assumption).
  destruct (find k t) as [x|] eqn:F.
  - exists (bst_insert t n). split; [apply rb_insert_present; congruence|].
    split; [|reflexivity]. split; [exact B'|]. split; [exact K'|].
    apply (bst_insert_present_avl 45 n t); [lia | exact A |].
    change (key n) with k. congruence.
  - destruct (rb_insert_absent k v conf pol t F A) as (t' & E & A' & I).
    fold n in I. symmetry in I.
    exists t'. split; [exact E|]. split; [|congruence].
    assert (B2 : bst t') by (eapply bst_inorder_eq; eauto).
    assert (K2 : all_keys uint32_range t')
      by (eapply all_keys_inorder_eq; eauto).
    split; [exact B2|]. split; [exact K2|].
    apply (avl_tighten 46); [lia | exact A' | apply index_size; assumption].
Qed.

Lemma lookup_bst_insert (k' : Z) (t : tree) (n : RBNode) :
  lookup k' (bst_insert t n) =
  if k' =? key n then Some (val n, confidence n, polarity n) else lookup k' t.
Proof.
  rewrite !lookup_forget, find_bst_insert.
  destruct (k' =? key n); [|reflexivity].
  destruct (find k' t); reflexivity.
Qed.

Theorem rb_insert_lookup (k v : Z) (conf : float32) (pol : Z) (t t' : tree) :
  index_ok t -> rb_insert k v conf pol t = Some t' ->
  forall k', lookup k' t' =
             if k' =? k then Some (v, conf, pol) else lookup k' t.
Proof.
  intros (B & K & A) E k'.
  set (n := new_node k v conf pol t).
  assert (I : inorder (bst_insert t n) = inorder t').
  { destruct (find k t) as [x|] eqn:F.
    - rewrite rb_insert_present in E by congruence.
      injection E as <-. reflexivity.
    - destruct (rb_insert_absent k v conf pol t F A) as (t2 & E2 & _ & I).
      rewrite E in E2. injection E2 as <-. symmetry. exact I. }
  rewrite <- (lookup_inorder_eq k' _ _ (bst_bst_insert t n B) I).
  apply lookup_bst_insert.
Qed.

Lemma rb_insert_size (k v : Z) (conf : float32) (pol : Z) (t t' : tree) :
  index_ok t -> rb_insert k v conf pol t = Some t' ->
  size t' = size t + match find k t with Some _ => 0 | None => 1 end.
Proof.
  intros (B & K & A) E.
  set (n := new_node k v conf pol t).
  assert (I : inorder (bst_insert t n) = inorder t').
  { destruct (find k t) as [x|] eqn:F.
    - rewrite rb_insert_present in E by congruence.
      injection E as <-. reflexivity.
    - destruct (rb_insert_absent k v conf pol t F A) as (t2 & E2 & _ & I).
      rewrite E in E2. injection E2 as <-. symmetry. exact I. }
  rewrite (size_inorder t'), <- I, <- size_inorder.
  apply (size_bst_insert t n).
Qed.

Lemma index_ok_NULL : index_ok NULL.
Proof. repeat split. Qed.

(** ** Writing through the pointer [find] returned *)

Section Store.

Variables (k : Z) (n : RBNode).

Lemma store_height (t : tree) (x : RBNode) :
  find k t = Some x -> hgt n = hgt x ->
  height (store k (fun _ => n) t) = height t.
Proof.
  destruct t as [|l y r]; cbn [find store]; [discriminate|].
  destruct (k =? key y).
  - intros [= <-] H. exact H.
  - destruct (k <? key y); reflexivity.
Qed.

Lemma store_keys (t : tree) (x : RBNode) :
  find k t = Some x -> key n = key x ->
  keys (store k (fun _ => n) t) = keys t.
Proof.
  unfold keys. induction t as [|l IHl y r IHr]; cbn [find store]; [discriminate|].
  destruct (k =? key y).
  - intros [= <-] H. cbn [inorder]. rewrite !map_app. cbn [map forget set_hgt key].
    rewrite H. reflexivity.
  - destruct (k <? key y); intros F H; cbn [inorder]; rewrite !map_app;
      cbn [map]; [rewrite (IHl F H) | rewrite (IHr F H)]; reflexivity.
Qed.

Lemma store_size (t : tree) : size (store k (fun _ => n) t) = size t.
Proof.
  induction t as [|l IHl y r IHr]; cbn [store]; [reflexivity|].
  destruct (k =? key y); [reflexivity|].
  destruct (k <? key y); cbn [size]; lia.
Qed.

Lemma store_avl (M : Z) (t : tree) (x : RBNode) :
  find k t = Some x -> hgt n = hgt x -> avl M t ->
  avl M (store k (fun _ => n) t).
Proof.
  induction t as [|l IHl y r IHr]; cbn [find store]; [discriminate|].
  destruct (k =? key y).
  - intros [= <-] H. cbn [avl]. rewrite H. auto.
  - destruct (k <? key y); intros F H (Al & Ar & Ab & Ay & Ac); cbn [avl].
    + rewrite (store_height l x F H).
      split; [apply IHl; assumption|]. split; [exact Ar|].
      split; [exact Ab|]. split; [exact Ay|].
      destruct Ac as [Ac|(Ac & -> & _)]; [left; exact Ac | discriminate].
    + rewrite (store_height r x F H).
      split; [exact Al|]. split; [apply IHr; assumption|].
      split; [exact Ab|]. split; [exact Ay|].
      destruct Ac as [Ac|(Ac & _ & ->)]; [left; exact Ac | discriminate].
Qed.

Lemma find_store (t : tree) (x : RBNode) (k' : Z) :
  find k t = Some x -> key n = key x ->
  find k' (store k (fun _ => n) t) = if k' =? k then Some n else find k' t.
Proof.
  induction t as [|l IHl y r IHr]; cbn [find store]; [discriminate|].
  destruct (Z.eqb_spec k (key y)) as [E|Hne].
  - intros [= <-] H. cbn [find]. rewrite H, <- E.
    destruct (k' =? k); reflexivity.
  - intros F H.
    destruct (Z.ltb_spec k (key y)); cbn [find];
      destruct (Z.eqb_spec k' (key y)) as [->|];
      try (destruct (Z.eqb_spec (key y) k); [congruence | reflexivity]).
    + destruct (Z.ltb_spec k' (key y)); [apply IHl; assumption|].
      destruct (Z.eqb_spec k' k); [lia | reflexivity].
    + destruct (Z.ltb_spec k' (key y)); [|apply IHr; assumption].
      destruct (Z.eqb_spec k' k); [lia | reflexivity].
Qed.

Lemma store_index_ok (t : tree) (x : RBNode) :
  find k t = Some x -> key n = key x -> hgt n = hgt x ->
  index_ok t -> index_ok (store k (fun _ => n) t).
Proof.
  intros F Hk Hh (B & K & A). split; [|split].
  - rewrite bst_sorted in *. rewrite (store_keys t x F Hk). exact B.
  - rewrite all_keys_Forall in *. rewrite (store_keys t x F Hk). exact K.
  - eapply store_avl; eauto.
Qed.

End Store.

(** ** The invariant along a history *)

Lemma mark_measurement_index_ok (k : Z) (conf : float32) (pol : Z) (s : state) :
  index_ok (rb_root s) -> index_ok (rb_root (mark_measurement k conf pol s)).
Proof.
  intros H. unfold mark_measurement.
  destruct (find k (rb_root s)) as [x|] eqn:F; [|exact H].
  destruct (SFltb conf PRUNE_THRESHOLD ||
            (polarity (if pol =? 0 then set_confidence x conf
                       else set_polarity (set_confidence x conf) pol)
             =? POLARITY_NEG)); cbn [rb_root];
    apply (store_index_ok _ _ _ x F); try assumption;
    repeat match goal with |- context [if ?b then _ else _] => destruct b end;
    reflexivity.
Qed.

Lemma step_index_ok (s : state) (o : op) :
  index_ok (rb_root s) ->
  exists s', step s o = Some s' /\ index_ok (rb_root s').
Proof.
  intros H. destruct o as [k v conf pol|k|k conf pol]; cbn [step].
  - destruct (rb_insert_ok (uint32 k) (uint8 v) conf (uint8 pol) (rb_root s) H
                (uint32_in_range k)) as (t' & E & H' & _).
    rewrite E. eexists. split; [reflexivity | exact H'].
  - exists s. split; [reflexivity | exact H].
  - eexists. split; [reflexivity|]. apply mark_measurement_index_ok, H.
Qed.

Lemma run_index_ok (ops : list op) (s : state) :
  index_ok (rb_root s) ->
  exists s', run s ops = Some s' /\ index_ok (rb_root s').
Proof.
  revert s. induction ops as [|o ops IH]; intros s H; cbn [run].
  - exists s. split; [reflexivity | exact H].
  - destruct (step_index_ok s o H) as (s1 & E & H1). rewrite E.
    apply IH, H1.
Qed.

(** C3: after any sequence of insert, find and markMeasurement calls on
    the empty index, every call returns and the tree is a binary search
    tree: at every node the keys of the left subtree are strictly
    smaller than the node's key and those of the right subtree strictly
    greater. *)
Theorem bst_after_any_history (ops : list op) :
  exists s, run init ops = Some s /\ bst (rb_root s).
Proof.
  destruct (run_index_ok ops init index_ok_NULL) as (s & E & B & _).
  exists s. split; assumption.
Qed.

(** ** Measurements *)

Lemma int_wrap_small (x : Z) :
  -2147483648 <= x <= INT_MAX -> int_wrap x = x.
Proof.
  unfold int_wrap, INT_MAX. intros H. rewrite Z.mod_small by lia. lia.
Qed.

Lemma SFcompare_opp (x y : spec_float) :
  SFcompare y x = option_map CompOpp (SFcompare x y).
Proof.
  destruct x as [sx|sx| |sx mx ex], y as [sy|sy| |sy my ey]; cbn [SFcompare option_map];
    try reflexivity;
    try (destruct sx; reflexivity); try (destruct sy; reflexivity);
    try (destruct sx, sy; reflexivity).
  pose proof (Pos.compare_cont_antisym mx my Eq) as P. cbn [CompOpp] in P.
  destruct sx, sy; cbn [CompOpp]; try reflexivity;
    rewrite (Z.compare_antisym ex ey), <- P;
    destruct (ex ?= ey); cbn [CompOpp]; try reflexivity;
    destruct (Pos.compare_cont Eq mx my); reflexivity.
Qed.

(** A confidence of at least the threshold is not below it. *)
Lemma not_below_threshold (conf : float32) :
  SFleb PRUNE_THRESHOLD conf = true -> SFltb conf PRUNE_THRESHOLD = false.
Proof.
  unfold SFleb, SFltb. rewrite (SFcompare_opp PRUNE_THRESHOLD conf).
  destruct (SFcompare PRUNE_THRESHOLD conf) as [[| |]|]; cbn; congruence.
Qed.

Lemma measured_polarity (x : RBNode) (conf : float32) (pol : Z) :
  polarity (if pol =? 0 then set_confidence x conf
            else set_polarity (set_confidence x conf) pol)
  = polarity_after x pol.
Proof. unfold polarity_after. destruct (pol =? 0); reflexivity. Qed.





(** C9: markMeasurement on a key absent from the index returns the
    state as it was: no entry, no link of the tree and no streak counter
    changes. *)
Theorem mark_measurement_absent (s : state) (k : Z) (conf : float32) (pol : Z) :
  find k (rb_root s) = None -> mark_measurement k conf pol s = s.
Proof. intros F. unfold mark_measurement. rewrite F. reflexivity. Qed.

Lemma mark_measurement_absent_witness :
  find 2 (rb_root sample) = None /\
  mark_measurement 2 f32_0_4 POLARITY_NEG sample = sample.
Proof.
  assert (F : find 2 (rb_root sample) = None) by reflexivity.
  split; [exact F|].
  exact (mark_measurement_absent sample 2 f32_0_4 POLARITY_NEG F).
Defined.

(** ** Balance and capacity at concrete inputs *)

(** C2 at the inserts of keys 1, 2, 3 into the empty index: the three
    calls return and leave the chain 1, 2, 3; the root has no left child
    and a right child of height 2, so the heights of its children differ
    by 2. *)
Theorem three_inserts_unbalanced :
  exists s,
    run init [Insert 1 12 f32_one POLARITY_POS;
              Insert 2 8 f32_one POLARITY_POS;
              Insert 3 4 f32_one POLARITY_POS] = Some s /\
    keys (rb_root s) = [1; 2; 3] /\
    true_height (left (rb_root s)) = 0 /\
    true_height (right (rb_root s)) = 2 /\
    ~ balanced (rb_root s).
Proof.
  eexists. split; [vm_compute; reflexivity|].
  split; [reflexivity|]. split; [reflexivity|]. split; [reflexivity|].
  cbn [rb_root balanced true_height]. intros (_ & _ & H). revert H.
  vm_compute. intros (H & _). apply H. reflexivity.
Qed.

(** C4 at a file of four bytes and an output capacity of 1: the one
    chunk is encoded whole and [rift_open] returns 2. *)
Theorem rift_open_exceeds_capacity :
  exists out t,
    rift_open (Some [1; 2; 3; 4]) 1 true NULL = Some (2, out, t) /\
    List.length out = 2%nat /\ 1 < 2.
Proof.
  eexists _, _. split; [vm_compute; reflexivity|].
  split; [reflexivity | lia].
Qed.

(** ** Inserting a key again *)

(** [bst_insert] reaches [free(node)] exactly when the key of the node
    is already in the tree. *)
Lemma bst_insert_frees_present (t : tree) (n : RBNode) :
  bst_insert_frees t n = true <-> find (key n) t <> None.
Proof.
  induction t as [|l IHl x r IHr]; cbn [bst_insert_frees find].
  - split; [discriminate | congruence].
  - destruct (Z.eqb_spec (key n) (key x)) as [E|Hne].
    + destruct (Z.ltb_spec (key n) (key x)); [lia|].
      destruct (Z.gtb_spec (key n) (key x)); [lia|].
      split; [discriminate | reflexivity].
    + destruct (Z.ltb_spec (key n) (key x)); [exact IHl|].
      destruct (Z.gtb_spec (key n) (key x)); [exact IHr | lia].
Qed.

(** C6 at the insert of key 1 into the index that holds key 1:
    [bst_insert] overwrites value, confidence and polarity of the one
    node in place and adds no node, and on its way it reaches
    [free(node)]; the statement of [rb_insert] that follows reads the
    [parent] field of the node just freed. *)
Theorem insert_existing_key_frees_node :
  find 1 (rb_root sample) = Some (mkRBNode 1 12 POLARITY_POS f32_one 0 1) /\
  bst_insert (rb_root sample)
             (new_node 1 78 f32_one POLARITY_NEG (rb_root sample))
  = Node NULL (mkRBNode 1 78 POLARITY_NEG f32_one 0 1) NULL /\
  bst_insert_frees (rb_root sample)
                   (new_node 1 78 f32_one POLARITY_NEG (rb_root sample))
  = true.
Proof. split; [reflexivity|]. split; reflexivity. Qed.

(** ** The encoder *)

Lemma list_pair_ind (P : list Z -> Prop) :
  P [] -> (forall a, P [a]) -> (forall a b l, P l -> P (a :: b :: l)) ->
  forall l, P l.
Proof.
  intros H0 H1 H2 l.
  assert (H : P l /\ forall a, P (a :: l)); [|apply H].
  induction l as [|b l (IH & IH')]; split; auto.
Qed.

Lemma encode_from_nil (n : Z) (polarity_A : bool) (t : tree) :
  encode_from [] n polarity_A t = Some ([], n, t).
Proof. reflexivity. Qed.

Lemma encode_from_one (a n : Z) (polarity_A : bool) (t : tree) :
  encode_from [a] n polarity_A t =
  match rb_insert (uint32 (n + 1)) (logical polarity_A a 0) f32_one
                  (tag polarity_A) t with
  | None => None
  | Some t1 => Some ([logical polarity_A a 0], n + 1, t1)
  end.
Proof. cbn [encode_from]. destruct (rb_insert _ _ _ _ t); reflexivity. Qed.

Lemma encode_from_two (a b : Z) (l : list Z) (n : Z) (polarity_A : bool)
  (t : tree) :
  encode_from (a :: b :: l) n polarity_A t =
  match rb_insert (uint32 (n + 1)) (logical polarity_A a b) f32_one
                  (tag polarity_A) t with
  | None => None
  | Some t1 =>
      match encode_from l (n + 1) polarity_A t1 with
      | None => None
      | Some (out, m, t2) => Some (logical polarity_A a b :: out, m, t2)
      end
  end.
Proof. reflexivity. Qed.

Lemma encode_from_spec (polarity_A : bool) (in_ : list Z) :
  forall (n0 : Z) (t : tree),
    index_ok t ->
    exists out t',
      encode_from in_ n0 polarity_A t
        = Some (out, n0 + Z.of_nat (List.length out), t') /\
      index_ok t' /\
      List.length out = Nat.div2 (S (List.length in_)) /\
      (forall i, (i < List.length out)%nat ->
         nth i out 0 =
         logical polarity_A (nth (2 * i) in_ 0) (nth (2 * i + 1) in_ 0)) /\
      (0 <= n0 -> n0 + Z.of_nat (List.length out) < 4294967296 ->
       forall k,
         lookup k t' =
         if in_window n0 (List.length out) k
         then Some (nth (Z.to_nat (k - n0 - 1)) out 0, f32_one, tag polarity_A)
         else lookup k t).
Proof.
  induction in_ as [|a|a b l IH] using list_pair_ind; intros n0 t H.
  - exists [], t. rewrite encode_from_nil. cbn [List.length].
    split; [f_equal; f_equal; f_equal; lia|]. split; [exact H|].
    split; [reflexivity|]. split; [intros i Hi; simpl in Hi; lia|].
    intros _ _ k. unfold in_window.
    destruct (Z.ltb_spec n0 k); [|reflexivity].
    destruct (Z.leb_spec k (n0 + Z.of_nat 0)); [lia | reflexivity].
  - destruct (rb_insert_ok (uint32 (n0 + 1)) (logical polarity_A a 0) f32_one
                (tag polarity_A) t H (uint32_in_range _)) as (t1 & E & H1 & _).
    exists [logical polarity_A a 0], t1. rewrite encode_from_one, E.
    cbn [List.length].
    split; [f_equal; f_equal; f_equal; lia|]. split; [exact H1|].
    split; [reflexivity|].
    split.
    + intros i Hi. assert (i = 0%nat) as -> by (simpl in Hi; lia). reflexivity.
    + intros Hn Hb k. rewrite uint32_small in E by (unfold uint32_range; lia).
      rewrite (rb_insert_lookup _ _ _ _ _ _ H E). unfold in_window.
      destruct (Z.eqb_spec k (n0 + 1)) as [->|Hk].
      * destruct (Z.ltb_spec n0 (n0 + 1)); [|lia].
        destruct (Z.leb_spec (n0 + 1) (n0 + Z.of_nat 1)); [|lia].
        replace (n0 + 1 - n0 - 1) with 0 by lia. reflexivity.
      * destruct (Z.ltb_spec n0 k); [|reflexivity].
        destruct (Z.leb_spec k (n0 + Z.of_nat 1)); [lia | reflexivity].
  - destruct (rb_insert_ok (uint32 (n0 + 1)) (logical polarity_A a b) f32_one
                (tag polarity_A) t H (uint32_in_range _)) as (t1 & E & H1 & _).
    destruct (IH (n0 + 1) t1 H1) as (out & t2 & E2 & H2 & L & V & W).
    exists (logical polarity_A a b :: out), t2.
    rewrite encode_from_two, E, E2. cbn [List.length].
    split; [f_equal; f_equal; f_equal; lia|]. split; [exact H2|].
    split; [rewrite L; reflexivity|].
    split.
    + intros [|i] Hi; [reflexivity|].
      replace (2 * S i)%nat with (S (S (2 * i))) by lia.
      replace (S (S (2 * i)) + 1)%nat with (S (S (2 * i + 1))) by lia.
      cbn [nth]. apply V. simpl in Hi. lia.
    + intros Hn Hb k. rewrite uint32_small in E by (unfold uint32_range; lia).
      rewrite W by lia. rewrite (rb_insert_lookup _ _ _ _ _ _ H E).
      unfold in_window.
      destruct (Z.eqb_spec k (n0 + 1)) as [->|Hk].
      * destruct (Z.ltb_spec (n0 + 1) (n0 + 1)); [lia|]. cbn [andb].
        destruct (Z.ltb_spec n0 (n0 + 1)); [|lia].
        destruct (Z.leb_spec (n0 + 1) (n0 + Z.of_nat (S (List.length out))));
          [|lia].
        replace (n0 + 1 - n0 - 1) with 0 by lia. reflexivity.
      * destruct (Z.ltb_spec (n0 + 1) k), (Z.ltb_spec n0 k); try lia;
          cbn [andb]; [|reflexivity].
        destruct (Z.leb_spec k (n0 + 1 + Z.of_nat (List.length out))),
                 (Z.leb_spec k (n0 + Z.of_nat (S (List.length out))));
          try lia; [|reflexivity].
        replace (Z.to_nat (k - n0 - 1))
          with (S (Z.to_nat (k - (n0 + 1) - 1))) by lia.
        reflexivity.
Qed.

(** C8: from any index the invariant holds of, [rift_encode] returns
    [ceil(in_len / 2)] bytes, the [i]-th being the combination of the
    input bytes [2i] and [2i+1], with [0x00] for the second byte of the
    last pair of an input of odd length; [encode([0x41], false)] is
    [[0x4E]] and [encode([0x41, 0x42], true)] is [[0x0C]]. *)
Theorem rift_encode_output :
  (forall (in_ : list Z) (polarity_A : bool) (t : tree),
      index_ok t ->
      exists out t',
        rift_encode in_ polarity_A t
          = Some (out, Z.of_nat (List.length out), t') /\
        List.length out = ((List.length in_ + 1) / 2)%nat /\
        forall i, (i < List.length out)%nat ->
          nth i out 0 =
          logical polarity_A (nth (2 * i) in_ 0) (nth (2 * i + 1) in_ 0)) /\
  conjugate 65 = 78 /\
  (exists t', rift_encode [65] false NULL = Some ([78], 1, t')) /\
  (exists t', rift_encode [65; 66] true NULL = Some ([12], 1, t')).
Proof.
  split.
  - intros in_ polarity_A t H. unfold rift_encode.
    destruct (encode_from_spec polarity_A in_ 0 t H)
      as (out & t' & E & _ & L & V & _).
    exists out, t'. split; [exact E|]. split; [|exact V].
    rewrite L, Nat.div2_div. f_equal. lia.
  - split; [reflexivity|]. split; eexists; vm_compute; reflexivity.
Qed.

Lemma rift_encode_output_witness :
  index_ok NULL /\
  exists out t',
    rift_encode [65; 66; 67] true NULL
      = Some (out, Z.of_nat (List.length out), t') /\
    List.length out = ((List.length [65; 66; 67] + 1) / 2)%nat /\
    forall i, (i < List.length out)%nat ->
      nth i out 0 =
      logical true (nth (2 * i) [65; 66; 67] 0) (nth (2 * i + 1) [65; 66; 67] 0).
Proof.
  split; [exact index_ok_NULL|].
  exact (proj1 rift_encode_output [65; 66; 67] true NULL index_ok_NULL).
Defined.

(** ** Positions as keys *)

Lemma lookup_none_find (k : Z) (t : tree) :
  lookup k t = None <-> find k t = None.
Proof. unfold lookup. destruct (find k t); split; congruence. Qed.

Lemma div2_half (n : nat) :
  Z.of_nat (Nat.div2 (S n)) = (Z.of_nat n + 1) / 2.
Proof.
  rewrite Nat.div2_div.
  change (Z.of_nat (S n / 2)) with (Z.of_nat (Nat.div (S n) 2)).
  rewrite Nat2Z.inj_div. f_equal. lia.
Qed.

(** A call whose positions are all new to the index adds one node for
    each byte it writes. *)
Lemma encode_from_fresh (polarity_A : bool) (in_ : list Z) :
  forall (n0 : Z) (t : tree) (out : list Z) (m : Z) (t' : tree),
    index_ok t -> 0 <= n0 ->
    n0 + Z.of_nat (Nat.div2 (S (List.length in_))) < 4294967296 ->
    (forall k, n0 < k <= n0 + Z.of_nat (Nat.div2 (S (List.length in_))) ->
               find k t = None) ->
    encode_from in_ n0 polarity_A t = Some (out, m, t') ->
    size t' = size t + Z.of_nat (Nat.div2 (S (List.length in_))).
Proof.
  induction in_ as [|a|a b l IH] using list_pair_ind;
    intros n0 t out m t' H Hn Hb Fr E.
  - rewrite encode_from_nil in E. injection E as _ _ <-.
    cbn [List.length Nat.div2]. lia.
  - rewrite encode_from_one in E.
    destruct (rb_insert _ _ _ _ t) as [t1|] eqn:E1; [|discriminate].
    injection E as _ _ <-.
    cbn [List.length Nat.div2] in *.
    rewrite uint32_small in E1 by (unfold uint32_range; lia).
    rewrite (rb_insert_size _ _ _ _ _ _ H E1).
    rewrite (Fr (n0 + 1)) by lia. lia.
  - rewrite encode_from_two in E.
    destruct (rb_insert _ _ _ _ t) as [t1|] eqn:E1; [|discriminate].
    destruct (encode_from l (n0 + 1) polarity_A t1) as [[[o1 m1] t2]|] eqn:E2;
      [|discriminate].
    injection E as _ _ <-.
    change (Nat.div2 (S (List.length (a :: b :: l))))
      with (S (Nat.div2 (S (List.length l)))) in *.
    remember (Nat.div2 (S (List.length l))) as d eqn:Hd. clear Hd.
    rewrite uint32_small in E1 by (unfold uint32_range; lia).
    assert (H1 : index_ok t1).
    { destruct (rb_insert_ok (n0 + 1) (logical polarity_A a b) f32_one
                  (tag polarity_A) t H ltac:(unfold uint32_range; lia))
        as (t1' & E1' & H1 & _).
      rewrite E1 in E1'. injection E1' as <-. exact H1. }
    rewrite (IH (n0 + 1) t1 o1 m1 t2 H1 ltac:(lia) ltac:(lia)); [| |exact E2].
    + rewrite (rb_insert_size _ _ _ _ _ _ H E1).
      rewrite (Fr (n0 + 1)) by lia. lia.
    + intros k Hk. apply lookup_none_find.
      rewrite (rb_insert_lookup _ _ _ _ _ _ H E1).
      destruct (Z.eqb_spec k (n0 + 1)); [lia|].
      apply lookup_none_find, Fr. lia.
Qed.

(** C1 (as amended): a call of [rift_encode] numbers its output bytes
    from 1.  On an index that holds none of the positions of the call,
    the call returns, every byte it produced is the entry under its
    position in this call, with confidence 1.0 and the polarity of the
    call; the index has one more node for each byte, and no other key
    has changed. *)
Theorem rift_encode_positions (in_ : list Z) (polarity_A : bool) (t : tree) :
  index_ok t -> Z.of_nat (List.length in_) < 8589934590 ->
  (forall k, 1 <= k <= (Z.of_nat (List.length in_) + 1) / 2 ->
             find k t = None) ->
  exists out t',
    rift_encode in_ polarity_A t = Some (out, Z.of_nat (List.length out), t') /\
    (forall i, (i < List.length out)%nat ->
       lookup (Z.of_nat i + 1) t'
       = Some (nth i out 0, f32_one, tag polarity_A)) /\
    size t' = size t + Z.of_nat (List.length out) /\
    (forall k, ~ 1 <= k <= Z.of_nat (List.length out) ->
       lookup k t' = lookup k t).
Proof.
  intros H B Fr. unfold rift_encode.
  destruct (encode_from_spec polarity_A in_ 0 t H)
    as (out & t' & E & _ & L & _ & W).
  exists out, t'. split; [exact E|].
  assert (Hb : 0 + Z.of_nat (List.length out) < 4294967296).
  { rewrite L, div2_half.
    assert ((Z.of_nat (List.length in_) + 1) / 2 < 4294967296); [|lia].
    apply Z.div_lt_upper_bound; lia. }
  specialize (W ltac:(lia) Hb). split; [|split].
  - intros i Hi. rewrite W. unfold in_window.
    destruct (Z.ltb_spec 0 (Z.of_nat i + 1)); [|lia].
    destruct (Z.leb_spec (Z.of_nat i + 1) (0 + Z.of_nat (List.length out)));
      [|lia].
    cbn [andb]. replace (Z.to_nat (Z.of_nat i + 1 - 0 - 1)) with i by lia.
    reflexivity.
  - pose proof (encode_from_fresh polarity_A in_ 0 t out
                  (0 + Z.of_nat (List.length out)) t' H ltac:(lia))
      as S.
    rewrite <- div2_half, <- L in Fr. rewrite <- L in S.
    apply S; [exact Hb | | exact E].
    intros k Hk. apply Fr. lia.
  - intros k Hk. rewrite W. unfold in_window.
    destruct (Z.ltb_spec 0 k); [|reflexivity].
    destruct (Z.leb_spec k (0 + Z.of_nat (List.length out))); [lia|].
    reflexivity.
Qed.

Lemma rift_encode_positions_witness :
  index_ok far_entry /\
  Z.of_nat (List.length [67; 68; 69]) < 8589934590 /\
  (forall k, 1 <= k <= (Z.of_nat (List.length [67; 68; 69]) + 1) / 2 ->
             find k far_entry = None) /\
  exists out t',
    rift_encode [67; 68; 69] false far_entry
      = Some (out, Z.of_nat (List.length out), t') /\
    (forall i, (i < List.length out)%nat ->
       lookup (Z.of_nat i + 1) t' = Some (nth i out 0, f32_one, tag false)) /\
    size t' = size far_entry + Z.of_nat (List.length out) /\
    (forall k, ~ 1 <= k <= Z.of_nat (List.length out) ->
       lookup k t' = lookup k far_entry).
Proof.
  assert (H : index_ok far_entry).
  { unfold index_ok, uint32_range. cbn. repeat split; auto; lia. }
  assert (B : Z.of_nat (List.length [67; 68; 69]) < 8589934590)
    by (cbn; lia).
  assert (Fr : forall k,
             1 <= k <= (Z.of_nat (List.length [67; 68; 69]) + 1) / 2 ->
             find k far_entry = None).
  { intros k Hk.
    change ((Z.of_nat (List.length [67; 68; 69]) + 1) / 2) with 2 in Hk.
    unfold far_entry. cbn [find key].
    destruct (Z.eqb_spec k 9); [lia|]. destruct (k <? 9); reflexivity. }
  split; [exact H|]. split; [exact B|]. split; [exact Fr|].
  exact (rift_encode_positions [67; 68; 69] false far_entry H B Fr).
Defined.

(** What [rift_open] returns on a file of 4098 bytes: the total, the
    number of bytes written and the entry under the key 2049. *)
Lemma two_chunks_run :
  option_map (fun r : Z * list Z * tree =>
                (fst (fst r), List.length (snd (fst r)), lookup 2049 (snd r)))
             (rift_open (Some (repeat 65 4098)) 4096 true NULL)
  = Some (2049, 2049%nat, None).
Proof. vm_compute. reflexivity. Qed.

(** C1 fails on a file of 4098 bytes: [rift_open] reads it as two
    chunks and returns 2049 bytes, the second call of [rift_encode]
    counts again from 1, and the index holds nothing under the key
    2049. *)
Lemma running_position_fails :
  ~ running_position_keys (repeat 65 4098) 4096 true.
Proof.
  intros H. pose proof two_chunks_run as R. red in H.
  destruct (rift_open (Some (repeat 65 4098)) 4096 true NULL)
    as [[[total out] t]|]; [|discriminate].
  cbn [option_map fst snd] in R. injection R as _ L N.
  specialize (H total out t eq_refl 2048%nat).
  rewrite L in H. specialize (H (Nat.lt_succ_diag_r 2048)).
  change (Z.of_nat 2048 + 1) with 2049 in H. rewrite N in H. discriminate.
Qed.

(** ** The two polarities *)

Lemma uint8_land (x : Z) : uint8 x = Z.land x 255.
Proof.
  unfold uint8. change 256 with (2 ^ 8). change 255 with (Z.ones 8).
  rewrite Z.land_ones by lia. reflexivity.
Qed.

Lemma land_lxor (x y m : Z) :
  Z.land (Z.lxor x y) m = Z.lxor (Z.land x m) (Z.land y m).
Proof.
  apply Z.bits_inj'. intros i Hi.
  rewrite Z.land_spec, !Z.lxor_spec, !Z.land_spec.
  destruct (Z.testbit x i), (Z.testbit y i), (Z.testbit m i); reflexivity.
Qed.

Lemma uint8_lxor (x y : Z) : uint8 (Z.lxor x y) = Z.lxor (uint8 x) (uint8 y).
Proof. rewrite !uint8_land. apply land_lxor. Qed.

Lemma uint8_idem (x : Z) : uint8 (uint8 x) = uint8 x.
Proof. unfold uint8. apply Z.mod_mod. lia. Qed.

Lemma logical_both (polarity_A : bool) (a b : Z) :
  logical polarity_A a b = uint8 (Z.lxor (Z.lxor a b) 15).
Proof.
  unfold logical, conjugate. destruct polarity_A.
  - rewrite (uint8_lxor a (uint8 (Z.lxor 15 b))), uint8_idem, <- uint8_lxor.
    f_equal. rewrite (Z.lxor_comm 15 b). symmetry. apply Z.lxor_assoc.
  - rewrite (uint8_lxor (uint8 (Z.lxor 15 a)) b), uint8_idem, <- uint8_lxor.
    f_equal. rewrite (Z.lxor_comm 15 a), !Z.lxor_assoc. f_equal.
    apply Z.lxor_comm.
Qed.

Lemma conjugate_byte (x : Z) : 0 <= x < 256 -> conjugate x = Z.lxor 15 x.
Proof.
  intros H. unfold conjugate.
  rewrite uint8_lxor, (uint8_small x H). reflexivity.
Qed.

(** Relabelling the nodes by a function that keeps what the tree
    operations read (key and stored height) commutes with every
    operation. *)
Section Relabel.

Variable f : RBNode -> RBNode.
Hypothesis f_key : forall x, key (f x) = key x.
Hypothesis f_hgt : forall x, hgt (f x) = hgt x.
Hypothesis f_set_hgt : forall x h, f (set_hgt x h) = set_hgt (f x) h.
Hypothesis f_overwrite : forall x n, f (overwrite x n) = overwrite (f x) (f n).

Lemma height_relabel (t : tree) : height (relabel f t) = height t.
Proof. destruct t; cbn [relabel height]; [reflexivity | apply f_hgt]. Qed.

Lemma bf_relabel (t : tree) : bf (relabel f t) = bf t.
Proof.
  destruct t; cbn [relabel bf]; [reflexivity|].
  rewrite !height_relabel. reflexivity.
Qed.

Lemma update_height_relabel (t : tree) :
  update_height (relabel f t) = relabel f (update_height t).
Proof.
  destruct t; cbn [relabel update_height]; [reflexivity|].
  rewrite !height_relabel, f_set_hgt. reflexivity.
Qed.

Lemma rotate_left_relabel (t : tree) :
  rotate_left (relabel f t) = relabel f (rotate_left t).
Proof.
  destruct t as [|a x [|b y c]]; try reflexivity.
  cbn [relabel rotate_left].
  change (Node (relabel f a) (f x) (relabel f b)) with (relabel f (Node a x b)).
  rewrite update_height_relabel.
  change (Node (relabel f (update_height (Node a x b))) (f y) (relabel f c))
    with (relabel f (Node (update_height (Node a x b)) y c)).
  apply update_height_relabel.
Qed.

Lemma rotate_right_relabel (t : tree) :
  rotate_right (relabel f t) = relabel f (rotate_right t).
Proof.
  destruct t as [|[|a y b] x c]; try reflexivity.
  cbn [relabel rotate_right].
  change (Node (relabel f b) (f x) (relabel f c)) with (relabel f (Node b x c)).
  rewrite update_height_relabel.
  change (Node (relabel f a) (f y) (relabel f (update_height (Node b x c))))
    with (relabel f (Node a y (update_height (Node b x c)))).
  apply update_height_relabel.
Qed.

Lemma left_relabel (t : tree) : left (relabel f t) = relabel f (left t).
Proof. destruct t; reflexivity. Qed.

Lemma right_relabel (t : tree) : right (relabel f t) = relabel f (right t).
Proof. destruct t; reflexivity. Qed.

Lemma set_left_relabel (t l : tree) :
  set_left (relabel f t) (relabel f l) = relabel f (set_left t l).
Proof. destruct t; reflexivity. Qed.

Lemma set_right_relabel (t r : tree) :
  set_right (relabel f t) (relabel f r) = relabel f (set_right t r).
Proof. destruct t; reflexivity. Qed.

Lemma attach_relabel (fr : frame) (t : tree) :
  attach (relabel_frame f fr) (relabel f t) = relabel f (attach fr t).
Proof. destruct fr; reflexivity. Qed.

Lemma plug_relabel (up : list frame) (t : tree) :
  plug (relabel f t) (map (relabel_frame f) up) = relabel f (plug t up).
Proof.
  revert t. induction up as [|fr up IH]; intros t; [reflexivity|].
  cbn [map]. unfold plug in *. cbn [fold_left].
  rewrite attach_relabel. apply IH.
Qed.

Lemma rebalance_up_relabel (fuel : nat) (n : tree) (up : list frame) :
  rebalance_up fuel (relabel f n) (map (relabel_frame f) up) =
  option_map (relabel f) (rebalance_up fuel n up).
Proof.
  revert n up. induction fuel as [|fuel IH]; intros n up.
  - destruct n; cbn [relabel rebalance_up option_map]; [|reflexivity].
    f_equal. apply (plug_relabel up NULL).
  - destruct n as [|l x r].
    + cbn [relabel rebalance_up option_map]. f_equal.
      apply (plug_relabel up NULL).
    + rewrite rebalance_up_unfold.
      change (Node (relabel f l) (f x) (relabel f r)) with (relabel f (Node l x r)).
      cbn [relabel]. rewrite rebalance_up_unfold.
      change (Node (relabel f l) (f x) (relabel f r)) with (relabel f (Node l x r)).
      cbv zeta. rewrite !height_relabel, !update_height_relabel.
      rewrite !left_relabel, !right_relabel, !bf_relabel.
      destruct (height l - height r >? 1).
      * rewrite <- IH. f_equal.
        destruct (bf (left (update_height (Node l x r))) <? 0).
        -- rewrite rotate_left_relabel, set_left_relabel.
           apply rotate_right_relabel.
        -- apply rotate_right_relabel.
      * destruct (height l - height r <? -1).
        -- rewrite <- IH. f_equal.
           destruct (bf (right (update_height (Node l x r))) >? 0).
           ++ rewrite rotate_right_relabel, set_right_relabel.
              apply rotate_left_relabel.
           ++ apply rotate_left_relabel.
        -- destruct up as [|fr up']; [reflexivity|].
           cbn [map]. rewrite attach_relabel. apply IH.
Qed.

Lemma bst_insert_relabel (t : tree) (n : RBNode) :
  bst_insert (relabel f t) (f n) = relabel f (bst_insert t n).
Proof.
  induction t as [|l IHl x r IHr]; cbn [relabel bst_insert]; [reflexivity|].
  rewrite !f_key.
  destruct (key n <? key x).
  - rewrite IHl.
    change (Node (relabel f (bst_insert l n)) (f x) (relabel f r))
      with (relabel f (Node (bst_insert l n) x r)).
    apply update_height_relabel.
  - destruct (key n >? key x).
    + rewrite IHr.
      change (Node (relabel f l) (f x) (relabel f (bst_insert r n)))
        with (relabel f (Node l x (bst_insert r n))).
      apply update_height_relabel.
    + cbn [relabel]. rewrite f_overwrite. reflexivity.
Qed.

Lemma find_relabel (k : Z) (t : tree) :
  find k (relabel f t) = option_map f (find k t).
Proof.
  induction t as [|l IHl x r IHr]; cbn [relabel find]; [reflexivity|].
  rewrite f_key. destruct (k =? key x); [reflexivity|].
  destruct (k <? key x); assumption.
Qed.

Lemma parents_relabel (k : Z) (t : tree) (acc : list frame) :
  parents k (relabel f t) (map (relabel_frame f) acc) =
  (relabel f (fst (parents k t acc)), map (relabel_frame f) (snd (parents k t acc))).
Proof.
  revert acc. induction t as [|l IHl x r IHr]; intros acc;
    cbn [relabel parents]; [reflexivity|].
  rewrite f_key. destruct (k <? key x).
  - apply (IHl (LeftOf x r :: acc)).
  - destruct (k >? key x); [|reflexivity].
    apply (IHr (RightOf l x :: acc)).
Qed.

Lemma rb_insert_relabel (k v v' : Z) (conf conf' : float32) (pol pol' : Z)
  (t : tree) :
  f (new_node k v conf pol t) = new_node k v' conf' pol' (relabel f t) ->
  rb_insert k v' conf' pol' (relabel f t) =
  option_map (relabel f) (rb_insert k v conf pol t).
Proof.
  intros N. unfold rb_insert.
  fold (new_node k v' conf' pol' (relabel f t)). fold (new_node k v conf pol t).
  rewrite <- N. set (n := new_node k v conf pol t).
  rewrite find_relabel, bst_insert_relabel.
  destruct (find k t); cbn [option_map].
  - reflexivity.
  - pose proof (parents_relabel k (bst_insert t n) []) as P.
    cbn [map] in P. rewrite P.
    destruct (parents k (bst_insert t n) []) as (sub, up). cbn [fst snd].
    destruct up as [|fr up]; cbn [map].
    + apply (rebalance_up_relabel (climb []) sub []).
    + rewrite attach_relabel.
      replace (climb (map (relabel_frame f) up)) with (climb up)
        by (unfold climb; rewrite length_map; reflexivity).
      apply rebalance_up_relabel.
Qed.

End Relabel.

Lemma rb_insert_unpolarised (k v : Z) (conf : float32) (pol : Z) (t : tree) :
  option_map unpolarised (rb_insert k v conf pol t) =
  rb_insert k v conf 0 (unpolarised t).
Proof.
  symmetry. unfold unpolarised.
  apply (rb_insert_relabel (fun x => set_polarity x 0)); try reflexivity.
  destruct t; reflexivity.
Qed.

Lemma encode_from_unpolarised (in_ : list Z) :
  forall (n0 : Z) (tA tB : tree),
    unpolarised tA = unpolarised tB ->
    option_map strip (encode_from in_ n0 true tA) =
    option_map strip (encode_from in_ n0 false tB).
Proof.
  induction in_ as [|a|a b l IH] using list_pair_ind; intros n0 tA tB U.
  - rewrite !encode_from_nil. cbn [option_map strip]. rewrite U. reflexivity.
  - rewrite !encode_from_one.
    pose proof (rb_insert_unpolarised (uint32 (n0 + 1)) (logical true a 0)
                  f32_one (tag true) tA) as EA.
    pose proof (rb_insert_unpolarised (uint32 (n0 + 1)) (logical false a 0)
                  f32_one (tag false) tB) as EB.
    rewrite U, (logical_both true), <- (logical_both false), <- EB in EA.
    rewrite (logical_both true a 0), <- (logical_both false a 0).
    destruct (rb_insert _ _ _ (tag true) tA) as [tA1|],
             (rb_insert _ _ _ (tag false) tB) as [tB1|];
      cbn [option_map strip] in *; try congruence.
  - rewrite !encode_from_two.
    pose proof (rb_insert_unpolarised (uint32 (n0 + 1)) (logical true a b)
                  f32_one (tag true) tA) as EA.
    pose proof (rb_insert_unpolarised (uint32 (n0 + 1)) (logical false a b)
                  f32_one (tag false) tB) as EB.
    rewrite U, (logical_both true), <- (logical_both false), <- EB in EA.
    rewrite (logical_both true a b), <- (logical_both false a b).
    destruct (rb_insert _ _ _ (tag true) tA) as [tA1|],
             (rb_insert _ _ _ (tag false) tB) as [tB1|];
      cbn [option_map] in EA; try discriminate; [|reflexivity].
    injection EA as U1. specialize (IH (n0 + 1) tA1 tB1 U1).
    destruct (encode_from l (n0 + 1) true tA1) as [[[oA nA] tA2]|],
             (encode_from l (n0 + 1) false tB1) as [[[oB nB] tB2]|];
      cbn [option_map strip] in *; congruence.
Qed.

(** C10: on every byte pair the two polarity modes compute the same
    byte, [a XOR conjugate(b) = conjugate(a) XOR b = a XOR b XOR 0xF];
    from any index the invariant holds of, [rift_encode] with polarity A
    and with polarity B return the same bytes, and the two resulting
    trees are equal once the polarity tags are erased. *)
Theorem polarity_modes_agree :
  (forall a b, 0 <= a < 256 -> 0 <= b < 256 ->
     Z.lxor a (conjugate b) = Z.lxor (Z.lxor a b) 15 /\
     Z.lxor (conjugate a) b = Z.lxor (Z.lxor a b) 15 /\
     logical true a b = Z.lxor a (conjugate b) /\
     logical false a b = Z.lxor (conjugate a) b) /\
  (forall (in_ : list Z) (t : tree),
     index_ok t ->
     exists out n tA tB,
       rift_encode in_ true t = Some (out, n, tA) /\
       rift_encode in_ false t = Some (out, n, tB) /\
       unpolarised tA = unpolarised tB).
Proof.
  split.
  - intros a b Ha Hb.
    assert (E1 : Z.lxor a (conjugate b) = Z.lxor (Z.lxor a b) 15).
    { rewrite (conjugate_byte b Hb), (Z.lxor_comm 15 b).
      symmetry. apply Z.lxor_assoc. }
    assert (E2 : Z.lxor (conjugate a) b = Z.lxor (Z.lxor a b) 15).
    { rewrite (conjugate_byte a Ha), (Z.lxor_comm 15 a), !Z.lxor_assoc.
      f_equal. apply Z.lxor_comm. }
    assert (R : uint8 (Z.lxor (Z.lxor a b) 15) = Z.lxor (Z.lxor a b) 15).
    { rewrite !uint8_lxor, (uint8_small a Ha), (uint8_small b Hb).
      reflexivity. }
    split; [exact E1|]. split; [exact E2|].
    rewrite !logical_both, R. split; congruence.
  - intros in_ t H. unfold rift_encode.
    destruct (encode_from_spec true in_ 0 t H) as (oA & tA & EA & _).
    destruct (encode_from_spec false in_ 0 t H) as (oB & tB & EB & _).
    pose proof (encode_from_unpolarised in_ 0 t t eq_refl) as U.
    rewrite EA, EB in U. cbn [option_map strip] in U.
    injection U as Eo En Et. subst oB.
    exists oA, (0 + Z.of_nat (List.length oA)), tA, tB.
    split; [exact EA|]. split; [exact EB | exact Et].
Qed.

Lemma polarity_modes_agree_witness :
  (0 <= 65 < 256 /\ 0 <= 66 < 256 /\
   Z.lxor 65 (conjugate 66) = Z.lxor (Z.lxor 65 66) 15 /\
   Z.lxor (conjugate 65) 66 = Z.lxor (Z.lxor 65 66) 15 /\
   logical true 65 66 = Z.lxor 65 (conjugate 66) /\
   logical false 65 66 = Z.lxor (conjugate 65) 66) /\
  (index_ok NULL /\
   exists out n tA tB,
     rift_encode [65; 66; 67] true NULL = Some (out, n, tA) /\
     rift_encode [65; 66; 67] false NULL = Some (out, n, tB) /\
     unpolarised tA = unpolarised tB).
Proof.
  assert (Ha : 0 <= 65 < 256) by lia.
  assert (Hb : 0 <= 66 < 256) by lia.
  split.
  - split; [exact Ha|]. split; [exact Hb|].
    exact (proj1 polarity_modes_agree 65 66 Ha Hb).
  - split; [exact index_ok_NULL|].
    exact (proj2 polarity_modes_agree [65; 66; 67] NULL index_ok_NULL).
Defined.

(** ** The chunks of a file *)

Lemma chunk_count (len : nat) :
  (4096 <= len)%nat -> ((len - 4096) / 4096 + 1 = len / 4096)%nat.
Proof.
  intros H.
  replace len with ((len - 4096) + 1 * 4096)%nat at 2 by lia.
  rewrite Nat.div_add by lia. reflexivity.
Qed.

(** ** The streak counters along a history *)

Lemma mark_measurement_streak (k : Z) (conf : float32) (pol : Z) (s : state)
  (c : Z) :
  (forall b, 0 <= streak s b <= c) -> c < INT_MAX ->
  forall b, 0 <= streak (mark_measurement k conf pol s) b <= c + 1.
Proof.
  intros R C b. pose proof (R b). pose proof (R (bucket k)).
  unfold mark_measurement. destruct (find k (rb_root s)); [|lia].
  destruct (SFltb conf PRUNE_THRESHOLD || _); cbn [streak]; unfold set_streak;
    destruct (b =? bucket k); try lia.
  rewrite int_wrap_small by (unfold INT_MAX in *; lia). lia.
Qed.

(** X20: along a history the streak counters stay in the range in
    which [streak++] is defined: starting from counters between 0 and
    [c], after [n] calls with [c + n <= INT_MAX] every counter is between
    0 and [c + n]. *)
Lemma streak_after_history (ops : list op) :
  forall (s s' : state) (c : Z),
    run s ops = Some s' ->
    (forall b, 0 <= streak s b <= c) ->
    c + Z.of_nat (List.length ops) <= INT_MAX ->
    forall b, 0 <= streak s' b <= c + Z.of_nat (List.length ops).
Proof.
  induction ops as [|o ops IH]; intros s s' c E R C b.
  - cbn [run] in E. injection E as <-. cbn [List.length]. pose proof (R b). lia.
  - cbn [run] in E. destruct (step s o) as [s1|] eqn:S1; [|discriminate].
    assert (R1 : forall b, 0 <= streak s1 b <= c + 1).
    { destruct o as [k v conf pol|k|k conf pol]; cbn [step] in S1.
      - destruct (rb_insert _ _ _ _ _); [|discriminate].
        injection S1 as <-. cbn [streak]. intros b'. pose proof (R b'). lia.
      - injection S1 as <-. intros b'. pose proof (R b'). lia.
      - injection S1 as <-. apply mark_measurement_streak; [exact R|].
        cbn [List.length] in C. lia. }
    cbn [List.length] in *.
    pose proof (IH s1 s' (c + 1) E R1 ltac:(lia) b). lia.
Qed.

(** ** The balance the code does keep *)

(** X19: after any history the stored heights of the two children of
    every node differ by at most 1, a leaf that no later call has passed
    through still counting for 0; stored heights never exceed 45, so the
    8-bit field never wraps. *)
Lemma stored_balance_after_any_history (ops : list op) :
  exists s, run init ops = Some s /\ avl 45 (rb_root s).
Proof.
  destruct (run_index_ok ops init index_ok_NULL) as (s & E & _ & _ & A).
  exists s. split; assumption.
Qed.

(** * Further properties of the index *)

(** ** Lookup and insertion *)



(** X2: from an index the invariant holds of, [rb_insert] with a key
    of 32 bits that is not in the index returns and keeps the invariant;
    the entry under the key is then the one inserted, every other entry
    is as before, the keys are the old ones and the new one, and there
    is one more node. *)
Theorem rb_insert_then_lookup (t : tree) (k v : Z) (conf : float32) (pol : Z) :
  index_ok t -> uint32_range k -> find k t = None ->
  exists t',
    rb_insert k v conf pol t = Some t' /\
    index_ok t' /\
    lookup k t' = Some (v, conf, pol) /\
    (forall k', k' <> k -> lookup k' t' = lookup k' t) /\
    (forall k', In k' (keys t') <-> k' = k \/ In k' (keys t)) /\
    size t' = size t + 1.
Proof.
  intros H Hk F.
  destruct (rb_insert_ok k v conf pol t H Hk) as (t' & E & H' & _).
  pose proof (rb_insert_lookup k v conf pol t t' H E) as L.
  exists t'. split; [exact E|]. split; [exact H'|].
  split; [rewrite L, Z.eqb_refl; reflexivity|].
  split.
  { intros k' Hn. rewrite L.
    destruct (Z.eqb_spec k' k); [contradiction | reflexivity]. }
  split.
  2: { rewrite (rb_insert_size k v conf pol t t' H E), F. reflexivity. }
  intros k'. destruct H as (B & _), H' as (B' & _).
  pose proof (find_none_keys k' t B) as N.
  pose proof (find_none_keys k' t' B') as N'.
  rewrite <- !lookup_none_find in N, N'. specialize (L k').
  destruct (Z.eqb_spec k' k) as [Heq|Hn].
  - subst k'. split; [auto|]. intros _.
    destruct (in_dec Z.eq_dec k (keys t')) as [HI|NI]; [exact HI|].
    apply N' in NI. congruence.
  - rewrite L in N'. split.
    + intros HI. right.
      destruct (in_dec Z.eq_dec k' (keys t)) as [HI2|NI]; [exact HI2|].
      apply N in NI. apply N' in NI. contradiction.
    + intros [->|HI]; [contradiction|].
      destruct (in_dec Z.eq_dec k' (keys t')) as [HI2|NI]; [exact HI2|].
      apply N' in NI. apply N in NI. contradiction.
Qed.

Lemma rb_insert_then_lookup_witness :
  index_ok (rb_root sample) /\ uint32_range 2 /\
  find 2 (rb_root sample) = None /\
  exists t',
    rb_insert 2 8 f32_one POLARITY_POS (rb_root sample) = Some t' /\
    index_ok t' /\
    lookup 2 t' = Some (8, f32_one, POLARITY_POS) /\
    (forall k', k' <> 2 -> lookup k' t' = lookup k' (rb_root sample)) /\
    (forall k', In k' (keys t') <-> k' = 2 \/ In k' (keys (rb_root sample))) /\
    size t' = size (rb_root sample) + 1.
Proof.
  assert (H : index_ok (rb_root sample)).
  { unfold index_ok, uint32_range. cbn. repeat split; auto; lia. }
  assert (K : uint32_range 2) by (unfold uint32_range; lia).
  assert (F : find 2 (rb_root sample) = None) by reflexivity.
  split; [exact H|]. split; [exact K|]. split; [exact F|].
  exact (rb_insert_then_lookup (rb_root sample) 2 8 f32_one POLARITY_POS H K F).
Defined.

(** ** Nothing is ever removed *)

Lemma mark_measurement_find (k k' : Z) (conf : float32) (pol : Z) (s : state) :
  find k' (rb_root s) <> None ->
  find k' (rb_root (mark_measurement k conf pol s)) <> None.
Proof.
  intros P. unfold mark_measurement.
  destruct (find k (rb_root s)) as [x|] eqn:F; [|exact P].
  destruct (SFltb conf PRUNE_THRESHOLD || _); cbn [rb_root];
    rewrite (find_store k _ (rb_root s) x k' F)
      by (repeat match goal with |- context [if ?b then _ else _] => destruct b end;
          reflexivity);
    destruct (k' =? k); congruence.
Qed.

(** X3: no call removes a node: a key that [find] reaches stays
    reachable after any further history of insert, find and
    markMeasurement calls, pruned or not. *)
Theorem entries_never_removed (ops : list op) :
  forall (s s' : state) (k : Z),
    index_ok (rb_root s) -> run s ops = Some s' ->
    find k (rb_root s) <> None -> find k (rb_root s') <> None.
Proof.
  induction ops as [|o ops IH]; intros s s' k H E P.
  - cbn [run] in E. injection E as <-. exact P.
  - cbn [run] in E. destruct (step s o) as [s1|] eqn:S1; [|discriminate].
    destruct (step_index_ok s o H) as (s1' & S1' & H1).
    rewrite S1 in S1'. injection S1' as <-.
    apply (IH s1 s' k H1 E).
    destruct o as [k0 v conf pol|k0|k0 conf pol]; cbn [step] in S1.
    + destruct (rb_insert _ _ _ _ _) as [t1|] eqn:R; [|discriminate].
      injection S1 as <-. cbn [rb_root].
      rewrite <- lookup_none_find in *.
      rewrite (rb_insert_lookup _ _ _ _ _ _ H R k).
      destruct (k =? uint32 k0); [discriminate | exact P].
    + injection S1 as <-. exact P.
    + injection S1 as <-. apply mark_measurement_find, P.
Qed.

Lemma entries_never_removed_witness :
  index_ok (rb_root sample) /\
  run sample [Mark 1 f32_0_4 0; Insert 2 8 f32_one POLARITY_POS]
    = Some (mkState two_nodes (set_streak 1 1 (fun _ => 0))) /\
  find 1 (rb_root sample) <> None /\
  find 1 two_nodes <> None.
Proof.
  assert (H : index_ok (rb_root sample)).
  { unfold index_ok, uint32_range. cbn. repeat split; auto; lia. }
  assert (E : run sample [Mark 1 f32_0_4 0; Insert 2 8 f32_one POLARITY_POS]
    = Some (mkState two_nodes (set_streak 1 1 (fun _ => 0)))) by reflexivity.
  assert (P : find 1 (rb_root sample) <> None) by (cbn; discriminate).
  split; [exact H|]. split; [exact E|]. split; [exact P|].
  exact (entries_never_removed _ sample _ 1 H E P).
Defined.

(** ** How far from balanced the tree can be *)

Lemma avl_true_height (M : Z) (t : tree) :
  avl M t -> height t <= true_height t <= height t + 1.
Proof.
  induction t as [|l IHl x r IHr]; intros A.
  - cbn [height true_height]. lia.
  - cbn [avl] in A. destruct A as (Al & Ar & Ab & Ax & Ac).
    specialize (IHl Al). specialize (IHr Ar).
    cbn [height true_height].
    destruct Ac as [Ac|(Ac & -> & ->)].
    + rewrite Ac. lia.
    + rewrite Ac. cbn [true_height]. lia.
Qed.

Lemma avl_balanced_within (M : Z) (t : tree) :
  avl M t -> balanced_within 2 t.
Proof.
  induction t as [|l IHl x r IHr]; intros A; [exact I|].
  pose proof A as (Al & Ar & Ab & Ax & Ac).
  pose proof (avl_true_height M l Al). pose proof (avl_true_height M r Ar).
  cbn [balanced_within]. split; [auto|]. split; [auto|]. lia.
Qed.

(** X4: after any history from the empty index the heights of the two
    children of every node differ by at most 2, and the tree is at most
    46 levels deep. *)
Theorem near_balance_after_any_history (ops : list op) :
  exists s,
    run init ops = Some s /\
    balanced_within 2 (rb_root s) /\
    true_height (rb_root s) <= 46.
Proof.
  destruct (run_index_ok ops init index_ok_NULL) as (s & E & _ & _ & A).
  exists s. split; [exact E|]. split; [eapply avl_balanced_within; eauto|].
  pose proof (avl_true_height 45 _ A).
  pose proof (avl_height 45 _ A ltac:(lia)). lia.
Qed.

(** ** Rotations *)

(** X5: a rotation keeps the nodes in the same order, so it keeps a
    search tree a search tree; a left rotation of a node that has a right
    child is undone by a right rotation, up to the stored heights (and
    the other way round). *)
Theorem rotations_keep_order (x : tree) :
  inorder (rotate_left x) = inorder x /\
  inorder (rotate_right x) = inorder x /\
  (bst x -> bst (rotate_left x) /\ bst (rotate_right x)) /\
  (right x <> NULL ->
   relabel forget (rotate_right (rotate_left x)) = relabel forget x) /\
  (left x <> NULL ->
   relabel forget (rotate_left (rotate_right x)) = relabel forget x).
Proof.
  split; [apply inorder_rotate_left|]. split; [apply inorder_rotate_right|].
  split.
  { intros B. split; eapply bst_inorder_eq; try exact B.
    - symmetry. apply inorder_rotate_left.
    - symmetry. apply inorder_rotate_right. }
  split.
  - destruct x as [|a xn [|b yn c]]; try contradiction. intros _. reflexivity.
  - destruct x as [|[|a yn b] xn c]; try contradiction. intros _. reflexivity.
Qed.

Lemma rotations_keep_order_witness :
  bst two_nodes /\ right two_nodes <> NULL /\
  bst (rotate_left two_nodes) /\
  relabel forget (rotate_right (rotate_left two_nodes))
  = relabel forget two_nodes.
Proof.
  assert (B : bst two_nodes) by (cbn; repeat split; auto; lia).
  assert (R : right two_nodes <> NULL) by (cbn; discriminate).
  split; [exact B|]. split; [exact R|].
  destruct (rotations_keep_order two_nodes) as (_ & _ & HB & HR & _).
  split; [exact (proj1 (HB B)) | exact (HR R)].
Defined.

(** ** What a measurement touches *)

Lemma skeleton_store (k : Z) (n : RBNode) (t : tree) (x : RBNode) :
  find k t = Some x -> blank n = blank x ->
  skeleton (store k (fun _ => n) t) = skeleton t.
Proof.
  induction t as [|l IHl y r IHr]; cbn [find store]; [discriminate|].
  destruct (k =? key y).
  - intros [= <-] H. cbn [skeleton]. rewrite H. reflexivity.
  - destruct (k <? key y); intros F H; cbn [skeleton];
      [rewrite (IHl F H) | rewrite (IHr F H)]; reflexivity.
Qed.

(** The node [mark_measurement] leaves under the key, from the node
    [x] it found. *)
Lemma mark_measurement_found (s : state) (k : Z) (x : RBNode)
  (conf : float32) (pol : Z) :
  find k (rb_root s) = Some x ->
  exists n,
    rb_root (mark_measurement k conf pol s)
      = store k (fun _ => n) (rb_root s) /\
    blank n = blank x /\
    polarity n = polarity_after x pol /\
    ((val n = val x /\ confidence n = conf) \/
     (val n = 0 /\ confidence n = f32_zero)).
Proof.
  intros F. unfold mark_measurement. rewrite F. rewrite measured_polarity.
  unfold polarity_after.
  destruct (SFltb conf PRUNE_THRESHOLD ||
            ((if pol =? 0 then polarity x else pol) =? POLARITY_NEG));
    cbn [rb_root]; eexists; (split; [reflexivity|]);
    repeat match goal with |- context [if ?b then _ else _] => destruct b end;
    cbn; auto.
Qed.

(** X6: a markMeasurement call changes neither the shape of the tree,
    nor a key, colour or stored height, nor any entry under another key,
    nor the streak counter of another bucket; the value of the entry
    under its key stays or becomes 0, never anything else. *)
Theorem mark_measurement_frame (s : state) (k : Z) (conf : float32) (pol : Z) :
  skeleton (rb_root (mark_measurement k conf pol s)) = skeleton (rb_root s) /\
  keys (rb_root (mark_measurement k conf pol s)) = keys (rb_root s) /\
  (forall k', k' <> k ->
     find k' (rb_root (mark_measurement k conf pol s)) = find k' (rb_root s)) /\
  (forall b, b <> bucket k ->
     streak (mark_measurement k conf pol s) b = streak s b) /\
  (forall x, find k (rb_root s) = Some x ->
     exists x', find k (rb_root (mark_measurement k conf pol s)) = Some x' /\
                (val x' = val x \/ val x' = 0)).
Proof.
  destruct (find k (rb_root s)) as [x|] eqn:F.
  - destruct (mark_measurement_found s k x conf pol F) as (n & E & Hb & _ & Hv).
    assert (Hk : key n = key x) by (injection Hb; auto).
    rewrite E. split; [eapply skeleton_store; eauto|].
    split; [eapply store_keys; eauto|].
    split.
    { intros k' Hn. rewrite (find_store k n _ x k' F Hk).
      destruct (Z.eqb_spec k' k); [contradiction | reflexivity]. }
    split.
    { intros b Hb'. unfold mark_measurement. rewrite F.
      destruct (SFltb conf PRUNE_THRESHOLD || _); cbn [streak];
        unfold set_streak; destruct (Z.eqb_spec b (bucket k));
        try contradiction; reflexivity. }
    intros x0 [= <-]. exists n. rewrite (find_store k n _ x k F Hk), Z.eqb_refl.
    split; [reflexivity|]. destruct Hv as [(-> & _)|(-> & _)]; auto.
  - assert (E : mark_measurement k conf pol s = s)
      by (unfold mark_measurement; rewrite F; reflexivity).
    rewrite E. repeat split; auto. intros x; discriminate.
Qed.

Lemma mark_measurement_frame_witness :
  2 <> 1 /\ 2 <> bucket 1 /\
  find 1 (rb_root
            (mkState two_nodes (fun _ => 0)))
    = Some (mkRBNode 1 0 POLARITY_POS f32_zero 0 1) /\
  find 2 (rb_root (mark_measurement 1 f32_0_4 0 (mkState two_nodes (fun _ => 0))))
    = find 2 two_nodes /\
  streak (mark_measurement 1 f32_0_4 0 (mkState two_nodes (fun _ => 0))) 2 = 0 /\
  exists x',
    find 1 (rb_root (mark_measurement 1 f32_0_4 0
                       (mkState two_nodes (fun _ => 0)))) = Some x' /\
    (val x' = val (mkRBNode 1 0 POLARITY_POS f32_zero 0 1) \/ val x' = 0).
Proof.
  assert (N : 2 <> 1) by lia.
  assert (B : 2 <> bucket 1) by (cbn; lia).
  assert (F : find 1 (rb_root (mkState two_nodes (fun _ => 0)))
              = Some (mkRBNode 1 0 POLARITY_POS f32_zero 0 1)) by reflexivity.
  destruct (mark_measurement_frame (mkState two_nodes (fun _ => 0)) 1 f32_0_4 0)
    as (_ & _ & HF & HS & HX).
  split; [exact N|]. split; [exact B|]. split; [exact F|].
  split; [exact (HF 2 N)|]. split; [exact (HS 2 B)|]. exact (HX _ F).
Defined.

(** X7: a markMeasurement call with confidence at least 0.5 after
    which the polarity is not Negative does not prune: the entry keeps
    its value, its confidence is the one given and its polarity the one
    given, or the old one when none was given. *)
Theorem mark_measurement_keeps (s : state) (k : Z) (x : RBNode)
  (conf : float32) (pol : Z) :
  find k (rb_root s) = Some x ->
  SFleb PRUNE_THRESHOLD conf = true ->
  polarity_after x pol <> POLARITY_NEG ->
  lookup k (rb_root (mark_measurement k conf pol s))
  = Some (val x, conf, polarity_after x pol).
Proof.
  intros F C P. unfold mark_measurement. rewrite F, measured_polarity.
  rewrite (not_below_threshold conf C).
  destruct (Z.eqb_spec (polarity_after x pol) POLARITY_NEG); [contradiction|].
  cbn [orb rb_root]. unfold lookup.
  rewrite (find_store k _ (rb_root s) x k F)
    by (destruct (pol =? 0); reflexivity).
  rewrite Z.eqb_refl. unfold polarity_after. destruct (pol =? 0); reflexivity.
Qed.

Lemma mark_measurement_keeps_witness :
  find 1 (rb_root sample) = Some (mkRBNode 1 12 POLARITY_POS f32_one 0 1) /\
  SFleb PRUNE_THRESHOLD f32_0_9 = true /\
  polarity_after (mkRBNode 1 12 POLARITY_POS f32_one 0 1) 0 <> POLARITY_NEG /\
  lookup 1 (rb_root (mark_measurement 1 f32_0_9 0 sample))
  = Some (12, f32_0_9, POLARITY_POS).
Proof.
  assert (F : find 1 (rb_root sample)
              = Some (mkRBNode 1 12 POLARITY_POS f32_one 0 1)) by reflexivity.
  assert (C : SFleb PRUNE_THRESHOLD f32_0_9 = true) by reflexivity.
  assert (P : polarity_after (mkRBNode 1 12 POLARITY_POS f32_one 0 1) 0
              <> POLARITY_NEG) by (vm_compute; discriminate).
  split; [exact F|]. split; [exact C|]. split; [exact P|].
  exact (mark_measurement_keeps sample 1 _ f32_0_9 0 F C P).
Defined.

(** X8: a qualifying measurement (confidence below 0.5, or polarity
    Negative afterwards) of a present key adds one to the streak counter
    of the bucket of the key, which every key with the same low byte
    shares. *)
Theorem mark_measurement_counts (s : state) (k : Z) (x : RBNode)
  (conf : float32) (pol : Z) :
  find k (rb_root s) = Some x ->
  0 <= streak s (bucket k) < INT_MAX ->
  SFltb conf PRUNE_THRESHOLD = true \/ polarity_after x pol = POLARITY_NEG ->
  streak (mark_measurement k conf pol s) (bucket k) = streak s (bucket k) + 1 /\
  forall k', k' mod 256 = k mod 256 -> bucket k' = bucket k.
Proof.
  intros F R Q. split.
  - unfold mark_measurement. rewrite F, measured_polarity.
    assert (C : SFltb conf PRUNE_THRESHOLD ||
                (polarity_after x pol =? POLARITY_NEG) = true).
    { destruct Q as [-> | ->]; [reflexivity|].
      rewrite Z.eqb_refl. apply orb_true_r. }
    rewrite C. cbn [streak]. unfold set_streak. rewrite Z.eqb_refl.
    apply int_wrap_small. unfold INT_MAX in *. lia.
  - intros k' E. unfold bucket. change 255 with (Z.ones 8).
    rewrite !Z.land_ones by lia. exact E.
Qed.

Lemma mark_measurement_counts_witness :
  find 1 (rb_root sample) = Some (mkRBNode 1 12 POLARITY_POS f32_one 0 1) /\
  0 <= streak sample (bucket 1) < INT_MAX /\
  streak (mark_measurement 1 f32_0_4 0 sample) (bucket 1)
  = streak sample (bucket 1) + 1 /\
  bucket 257 = bucket 1.
Proof.
  assert (F : find 1 (rb_root sample)
              = Some (mkRBNode 1 12 POLARITY_POS f32_one 0 1)) by reflexivity.
  assert (R : 0 <= streak sample (bucket 1) < INT_MAX)
    by (unfold sample, INT_MAX; cbn [streak]; lia).
  split; [exact F|]. split; [exact R|].
  destruct (mark_measurement_counts sample 1 _ f32_0_4 0 F R) as (E & A).
  - left. reflexivity.
  - split; [exact E | apply A; reflexivity].
Defined.

(** * Further properties of the transform *)

Lemma all_bytes_spec (P : Z -> bool) :
  forallb P all_bytes = true -> forall x, 0 <= x < 256 -> P x = true.
Proof.
  intros H x Hx. rewrite forallb_forall in H. apply H.
  unfold all_bytes. apply in_map_iff. exists (Z.to_nat x). split; [lia|].
  apply in_seq. lia.
Qed.

(** X9: on a byte, [conjugate] complements the low nibble and leaves
    the high nibble alone; it yields a byte and applying it twice gives
    the byte back. *)
Theorem conjugate_nibbles (x : Z) :
  0 <= x < 256 ->
  conjugate (conjugate x) = x /\
  conjugate x / 16 = x / 16 /\
  conjugate x mod 16 = 15 - x mod 16 /\
  0 <= conjugate x < 256.
Proof.
  intros Hx.
  pose proof (all_bytes_spec
    (fun x => (conjugate (conjugate x) =? x) &&
              (conjugate x / 16 =? x / 16) &&
              (conjugate x mod 16 =? 15 - x mod 16) &&
              (0 <=? conjugate x) && (conjugate x <? 256))
    ltac:(vm_compute; reflexivity) x Hx) as H.
  cbv beta in H. rewrite !andb_true_iff in H.
  destruct H as ((((H1 & H2) & H3) & H4) & H5).
  rewrite Z.eqb_eq in H1, H2, H3. rewrite Z.leb_le in H4.
  rewrite Z.ltb_lt in H5. auto.
Qed.

Lemma conjugate_nibbles_witness :
  0 <= 65 < 256 /\
  conjugate (conjugate 65) = 65 /\
  conjugate 65 / 16 = 65 / 16 /\
  conjugate 65 mod 16 = 15 - 65 mod 16 /\
  0 <= conjugate 65 < 256.
Proof.
  assert (H : 0 <= 65 < 256) by lia.
  split; [exact H|]. exact (conjugate_nibbles 65 H).
Defined.

Lemma logical_comm (polarity_A : bool) (a b : Z) :
  logical polarity_A a b = logical polarity_A b a.
Proof. rewrite !logical_both, (Z.lxor_comm a b). reflexivity. Qed.

Lemma swap_pairs_two (a b : Z) (l : list Z) :
  swap_pairs (a :: b :: l) = b :: a :: swap_pairs l.
Proof. reflexivity. Qed.

(** X10: the byte written for a pair does not depend on the order of
    the two bytes of the pair: [rift_encode] returns the same bytes, the
    same count and the same tree on an input and on the input with the
    bytes of every pair exchanged, so the input cannot be read back from
    the output. *)
Theorem rift_encode_swapped (polarity_A : bool) (in_ : list Z) (t : tree) :
  rift_encode (swap_pairs in_) polarity_A t = rift_encode in_ polarity_A t /\
  forall a b, logical polarity_A a b = logical polarity_A b a.
Proof.
  split; [|intros a b; apply logical_comm].
  unfold rift_encode. generalize 0. revert t.
  induction in_ as [|a|a b l IH] using list_pair_ind; intros t n;
    try reflexivity.
  rewrite swap_pairs_two, !encode_from_two, (logical_comm polarity_A b a).
  destruct (rb_insert _ _ _ _ t) as [t1|]; [|reflexivity].
  rewrite IH. reflexivity.
Qed.

(** ** The bytes of a call *)

Lemma encode_from_bytes (polarity_A : bool) (in_ : list Z) :
  forall (n : Z) (t : tree) (out : list Z) (m : Z) (t' : tree),
    encode_from in_ n polarity_A t = Some (out, m, t') ->
    out = encode_bytes polarity_A in_.
Proof.
  induction in_ as [|a|a b l IH] using list_pair_ind; intros n t out m t' E.
  - rewrite encode_from_nil in E. injection E as <- _ _. reflexivity.
  - rewrite encode_from_one in E.
    destruct (rb_insert _ _ _ _ t); [|discriminate].
    injection E as <- _ _. reflexivity.
  - rewrite encode_from_two in E.
    destruct (rb_insert _ _ _ _ t) as [t1|]; [|discriminate].
    destruct (encode_from l (n + 1) polarity_A t1) as [[[o1 m1] t2]|] eqn:E1;
      [|discriminate].
    injection E as <- _ _. cbn [encode_bytes]. f_equal. eapply IH, E1.
Qed.

Lemma encode_bytes_length (polarity_A : bool) (in_ : list Z) :
  List.length (encode_bytes polarity_A in_) = Nat.div2 (S (List.length in_)).
Proof.
  induction in_ as [|a|a b l IH] using list_pair_ind; try reflexivity.
  cbn [encode_bytes List.length]. rewrite IH. reflexivity.
Qed.

(** A call of [rift_encode], from an index the invariant holds of. *)
Lemma rift_encode_chunk (polarity_A : bool) (buf : list Z) (t : tree) :
  index_ok t ->
  exists t1,
    rift_encode buf polarity_A t
      = Some (encode_bytes polarity_A buf,
              Z.of_nat (List.length (encode_bytes polarity_A buf)), t1) /\
    index_ok t1 /\
    (Z.of_nat (List.length (encode_bytes polarity_A buf)) < 4294967296 ->
     forall k,
       lookup k t1 <> None <->
       1 <= k <= Z.of_nat (List.length (encode_bytes polarity_A buf)) \/
       lookup k t <> None).
Proof.
  intros H. unfold rift_encode.
  destruct (encode_from_spec polarity_A buf 0 t H)
    as (out & t1 & E & H1 & _ & _ & W).
  pose proof (encode_from_bytes _ _ _ _ _ _ _ E) as ->.
  exists t1. split; [exact E|]. split; [exact H1|].
  intros B k. rewrite (W ltac:(lia) ltac:(lia) k). unfold in_window.
  destruct (Z.ltb_spec 0 k), (Z.leb_spec k (0 + Z.of_nat
             (List.length (encode_bytes polarity_A buf)))); cbn [andb];
    split; try tauto; try (intros _; left; lia); try discriminate;
    try (intros [?|?]; [lia | assumption]); intros _; discriminate.
Qed.

(** * Further properties of [rift_open] *)

(** The loop of [rift_open] by an invariant: what holds before the loop
    and is kept by the encoding of a chunk holds when the loop leaves,
    which it does at the end of the file or at the capacity. *)
Lemma open_loop_rule (P : FILE -> Z -> list Z -> tree -> Prop)
  (polarity_A : bool) (out_cap : Z) :
  (forall f total out t,
      P f total out t -> eof f = false -> total < out_cap ->
      exists bytes m t1,
        rift_encode (firstn 4096 (unread f)) polarity_A t = Some (bytes, m, t1) /\
        P (snd (fread 4096 f)) (total + m) (out ++ bytes) t1) ->
  forall (fuel : nat) (f : FILE) (total : Z) (out : list Z) (t : tree),
    P f total out t ->
    eof f = true \/ (List.length (unread f) / 4096 + 2 <= fuel)%nat ->
    exists f' total' out' t',
      open_loop fuel f out_cap total out polarity_A t
        = Some (total', out', t') /\
      P f' total' out' t' /\ (eof f' = true \/ out_cap <= total').
Proof.
  intros Step. induction fuel as [|fuel IH]; intros f total out t H F.
  - destruct F as [F|F]; [|lia]. cbn [open_loop]. unfold feof. rewrite F.
    cbn [negb andb]. exists f, total, out, t. auto.
  - cbn [open_loop]. unfold feof.
    destruct (eof f) eqn:C; cbn [negb andb].
    + exists f, total, out, t. auto.
    + destruct (Z.ltb_spec total out_cap) as [L|L].
      * destruct F as [F|F]; [discriminate|].
        destruct (Step f total out t H C L) as (bytes & m & t1 & E & H1).
        unfold fread in *. cbn [snd] in H1. rewrite E. apply IH; [exact H1|].
        cbn [eof unread]. rewrite C. cbn [orb].
        destruct (Nat.ltb_spec (List.length (unread f)) 4096) as [L'|L'].
        -- left. reflexivity.
        -- right. rewrite length_skipn.
           pose proof (chunk_count _ L'). lia.
      * exists f, total, out, t. split; [reflexivity|]. split; [exact H|].
        right. lia.
Qed.

Lemma chunk_bytes_bound (polarity_A : bool) (l : list Z) :
  Z.of_nat (List.length (encode_bytes polarity_A (firstn 4096 l))) <= 2048 /\
  ((4096 <= List.length l)%nat ->
   Z.of_nat (List.length (encode_bytes polarity_A (firstn 4096 l))) = 2048).
Proof.
  rewrite encode_bytes_length, div2_half, length_firstn. split.
  - assert ((Z.of_nat (Nat.min 4096 (List.length l)) + 1) / 2 < 2049); [|lia].
    apply Z.div_lt_upper_bound; lia.
  - intros L. rewrite Nat.min_l by lia. reflexivity.
Qed.

(** X12: on a file whose reads succeed, what [rift_open] returns for a
    capacity that is not negative: the total is the number of bytes
    written, it is 0 when the capacity is 0, and it exceeds the capacity
    by at most 2047. *)
Theorem rift_open_overrun_bound (file : option (list Z)) (out_cap : Z)
  (polarity_A : bool) (t : tree) :
  index_ok t -> 0 <= out_cap ->
  exists total out t',
    rift_open file out_cap polarity_A t = Some (total, out, t') /\
    total = Z.of_nat (List.length out) /\
    (out_cap = 0 -> total = 0) /\
    total <= out_cap + 2047.
Proof.
  intros H C. destruct file as [bytes|]; cbn [rift_open].
  - destruct (open_loop_rule
      (fun f total out t' =>
         index_ok t' /\ total = Z.of_nat (List.length out) /\
         (out_cap = 0 -> total = 0) /\ total <= out_cap + 2047)
      polarity_A out_cap) with
      (fuel := (List.length bytes / 4096 + 2)%nat) (f := mkFILE bytes false)
      (total := 0) (out := @nil Z) (t := t)
      as (f' & total' & out' & t' & E & (_ & P) & _).
    + intros f total out t0 (H0 & T0 & Z0 & B0) Ef L.
      destruct (rift_encode_chunk polarity_A (firstn 4096 (unread f)) t0 H0)
        as (t1 & E1 & H1 & _).
      pose proof (proj1 (chunk_bytes_bound polarity_A (unread f))).
      eexists _, _, t1. split; [exact E1|].
      split; [exact H1|]. split; [rewrite length_app; lia|]. split; lia.
    + cbn [List.length]. split; [exact H|]. split; [reflexivity|]. split; lia.
    + right. cbn [unread]. lia.
    + exists total', out', t'. split; [exact E | exact P].
  - exists 0, [], t. cbn [List.length].
    split; [reflexivity|]. split; [reflexivity|]. split; lia.
Qed.

Lemma rift_open_overrun_bound_witness :
  index_ok NULL /\ 0 <= 1 /\
  exists total out t',
    rift_open (Some [1; 2; 3; 4]) 1 true NULL = Some (total, out, t') /\
    total = Z.of_nat (List.length out) /\
    (1 = 0 -> total = 0) /\
    total <= 1 + 2047.
Proof.
  assert (C : 0 <= 1) by lia.
  split; [exact index_ok_NULL|]. split; [exact C|].
  exact (rift_open_overrun_bound (Some [1; 2; 3; 4]) 1 true NULL
           index_ok_NULL C).
Defined.

Lemma rift_open_capacity_multiple (file : option (list Z)) (c : Z)
  (polarity_A : bool) (t : tree) :
  index_ok t -> 0 <= c ->
  exists total out t',
    rift_open file (2048 * c) polarity_A t = Some (total, out, t') /\
    total = Z.of_nat (List.length out) /\
    total <= 2048 * c.
Proof.
  intros H Hc. destruct file as [bytes|]; cbn [rift_open].
  - destruct (open_loop_rule
      (fun f total out t' =>
         index_ok t' /\ total = Z.of_nat (List.length out) /\
         total <= 2048 * c /\
         (eof f = false -> exists q, total = 2048 * q))
      polarity_A (2048 * c)) with
      (fuel := (List.length bytes / 4096 + 2)%nat) (f := mkFILE bytes false)
      (total := 0) (out := @nil Z) (t := t)
      as (f' & total' & out' & t' & E & (_ & T & B & _) & _).
    + intros f total out t0 (H0 & T0 & B0 & Q0) Ef L.
      destruct (Q0 Ef) as (q & Hq).
      destruct (rift_encode_chunk polarity_A (firstn 4096 (unread f)) t0 H0)
        as (t1 & E1 & H1 & _).
      pose proof (chunk_bytes_bound polarity_A (unread f)) as (Bm & Fm).
      eexists _, _, t1. split; [exact E1|].
      split; [exact H1|]. split; [rewrite length_app; lia|].
      split; [lia|].
      unfold fread. cbn [snd eof]. rewrite Ef. cbn [orb]. intros L'.
      apply Nat.ltb_ge in L'. exists (q + 1). rewrite (Fm L'). lia.
    + cbn [List.length eof]. split; [exact H|]. split; [reflexivity|].
      split; [lia|]. intros _. exists 0. lia.
    + right. cbn [unread]. lia.
    + exists total', out', t'. auto.
  - exists 0, [], t. cbn [List.length].
    split; [reflexivity|]. split; [reflexivity | lia].
Qed.

(** X13: when the capacity is a multiple of 2048 (the bytes of a full
    chunk), [rift_open] never writes past it: the total is at most the
    capacity. *)
Theorem rift_open_within_chunked_capacity (file : option (list Z)) (c : Z)
  (polarity_A : bool) (t : tree) :
  index_ok t -> 0 <= c ->
  exists total out t',
    rift_open file (2048 * c) polarity_A t = Some (total, out, t') /\
    total = Z.of_nat (List.length out) /\
    total <= 2048 * c.
Proof. apply rift_open_capacity_multiple. Qed.

Lemma rift_open_within_chunked_capacity_witness :
  index_ok NULL /\ 0 <= 1 /\
  exists total out t',
    rift_open (Some [1; 2; 3; 4]) (2048 * 1) true NULL
      = Some (total, out, t') /\
    total = Z.of_nat (List.length out) /\
    total <= 2048 * 1.
Proof.
  assert (C : 0 <= 1) by lia.
  split; [exact index_ok_NULL|]. split; [exact C|].
  exact (rift_open_within_chunked_capacity (Some [1; 2; 3; 4]) 1 true NULL
           index_ok_NULL C).
Defined.

(** * The command-line stub *)

(** X15: [main] cannot tell a file that does not open from an empty
    file: in both cases it exits with status 0 after reporting 0 bytes
    and an empty dump, and writes nothing to the standard error. *)
Theorem main_unavailable_as_empty (fs : String.string -> option (list Z))
  (argv0 path : String.string) (rest : list String.string) :
  fs path = None \/ fs path = Some [] ->
  CLI.main fs argv0 (path :: rest)
  = Some (0, CLI.report 0 (CLI.polarity_arg rest) [], String.EmptyString).
Proof.
  intros [E|E]; unfold CLI.main; rewrite E; reflexivity.
Qed.

Lemma main_unavailable_as_empty_witness :
  (CLI.no_files CLI.image = None \/ CLI.no_files CLI.image = Some []) /\
  CLI.main CLI.no_files CLI.image [CLI.image]
  = Some (0, CLI.report 0 (CLI.polarity_arg []) [], String.EmptyString).
Proof.
  assert (H : CLI.no_files CLI.image = None \/ CLI.no_files CLI.image = Some [])
    by (left; reflexivity).
  split; [exact H|].
  exact (main_unavailable_as_empty CLI.no_files CLI.image CLI.image [] H).
Defined.

(** X16: the call of [rift_open] that [main] makes, with the buffer of
    [1 << 20] bytes and the empty index, on a file whose reads succeed:
    the total returned is the number of bytes written and is at most the
    size of the buffer. *)
Theorem main_within_buffer (fs : String.string -> option (list Z))
  (path : String.string) (rest : list String.string) :
  exists n out t,
    rift_open (fs path) CLI.OUT_SIZE (CLI.polarity_arg rest) NULL
      = Some (n, out, t) /\
    n = Z.of_nat (List.length out) /\
    n <= CLI.OUT_SIZE.
Proof.
  destruct (rift_open_capacity_multiple (fs path) 512 (CLI.polarity_arg rest)
              NULL index_ok_NULL ltac:(lia)) as (n & out & t & E & L & B).
  change (2048 * 512) with CLI.OUT_SIZE in E, B.
  exists n, out, t. split; [exact E|]. split; [exact L | exact B].
Qed.

Lemma hex02_injective (a b : Z) :
  0 <= a < 256 -> 0 <= b < 256 -> CLI.hex02 a = CLI.hex02 b -> a = b.
Proof.
  intros Ha Hb E.
  pose proof (all_bytes_spec
    (fun a => forallb (fun b => implb (String.eqb (CLI.hex02 a) (CLI.hex02 b))
                                      (a =? b)) all_bytes)
    ltac:(vm_compute; reflexivity) a Ha) as H.
  cbv beta in H.
  pose proof (all_bytes_spec _ H b Hb) as H'. cbv beta in H'.
  rewrite E, String.eqb_refl in H'. cbn [implb] in H'.
  apply Z.eqb_eq, H'.
Qed.

Lemma hex02_cons (b : Z) (s : String.string) :
  String.append (CLI.hex02 b) s
  = String.String (CLI.hex_digit (b / 16))
      (String.String (CLI.hex_digit (b mod 16))
         (String.String (Ascii.ascii_of_nat 32) s)).
Proof. reflexivity. Qed.

Lemma dump_injective (l1 : list Z) :
  forall l2 : list Z,
    Forall (fun b => 0 <= b < 256) l1 -> Forall (fun b => 0 <= b < 256) l2 ->
    fold_right (fun b s => String.append (CLI.hex02 b) s) String.EmptyString l1
    = fold_right (fun b s => String.append (CLI.hex02 b) s) String.EmptyString l2 ->
    l1 = l2.
Proof.
  induction l1 as [|a l1 IH]; intros [|b l2] F1 F2 E; cbn [fold_right] in E.
  - reflexivity.
  - rewrite hex02_cons in E. discriminate.
  - rewrite hex02_cons in E. discriminate.
  - inversion F1 as [|? ? Ha F1']; subst. inversion F2 as [|? ? Hb F2']; subst.
    rewrite !hex02_cons in E. injection E as E1 E2 E3.
    f_equal.
    + apply hex02_injective; try assumption.
      unfold CLI.hex02. rewrite E1, E2. reflexivity.
    + apply IH; assumption.
Qed.

Lemma dump_length (l : list Z) :
  String.length
    (fold_right (fun b s => String.append (CLI.hex02 b) s) String.EmptyString l)
  = (3 * List.length l)%nat.
Proof.
  induction l as [|b l IH]; [reflexivity|].
  cbn [fold_right]. rewrite hex02_cons. cbn [String.length List.length].
  rewrite IH. lia.
Qed.

Lemma Forall_firstn_bytes (n : nat) (l : list Z) :
  Forall (fun b => 0 <= b < 256) l ->
  Forall (fun b => 0 <= b < 256) (firstn n l).
Proof.
  intros F. apply Forall_forall. intros x HI.
  rewrite Forall_forall in F. apply F.
  rewrite <- (firstn_skipn n l). apply in_or_app. left. exact HI.
Qed.

(** X17: the dump [main] prints has three characters for each of the
    first 64 bytes, and it determines them: two outputs with the same
    dump have the same first 64 bytes. *)
Theorem hexdump_determines_bytes (out1 out2 : list Z) :
  Forall (fun b => 0 <= b < 256) out1 ->
  Forall (fun b => 0 <= b < 256) out2 ->
  String.length (CLI.hexdump out1)
  = (3 * Nat.min 64 (List.length out1))%nat /\
  (CLI.hexdump out1 = CLI.hexdump out2 -> firstn 64 out1 = firstn 64 out2).
Proof.
  intros F1 F2. unfold CLI.hexdump. split.
  - rewrite dump_length, length_firstn. reflexivity.
  - apply dump_injective; apply Forall_firstn_bytes; assumption.
Qed.

Lemma hexdump_determines_bytes_witness :
  Forall (fun b => 0 <= b < 256) [12; 8] /\
  Forall (fun b => 0 <= b < 256) [12; 8] /\
  String.length (CLI.hexdump [12; 8])
  = (3 * Nat.min 64 (List.length [12; 8]))%nat /\
  (CLI.hexdump [12; 8] = CLI.hexdump [12; 8]
   -> firstn 64 [12; 8] = firstn 64 [12; 8]).
Proof.
  assert (F : Forall (fun b => 0 <= b < 256) [12; 8])
    by (repeat constructor; lia).
  split; [exact F|]. split; [exact F|].
  exact (hexdump_determines_bytes [12; 8] [12; 8] F F).
Defined.

Lemma streak_after_history_witness :
  run init [Mark 1 f32_0_4 0; Insert 1 12 f32_one POLARITY_POS;
            Mark 1 f32_0_4 0]
    = Some (mkState (Node NULL (mkRBNode 1 0 POLARITY_POS f32_zero 0 1) NULL)
                    (set_streak 1 1 (fun _ => 0))) /\
  (forall b, 0 <= streak init b <= 0) /\
  0 + Z.of_nat (List.length [Mark 1 f32_0_4 0;
                             Insert 1 12 f32_one POLARITY_POS;
                             Mark 1 f32_0_4 0]) <= INT_MAX /\
  forall b,
    0 <= streak (mkState (Node NULL (mkRBNode 1 0 POLARITY_POS f32_zero 0 1) NULL)
                         (set_streak 1 1 (fun _ => 0))) b
      <= 0 + Z.of_nat (List.length [Mark 1 f32_0_4 0;
                                    Insert 1 12 f32_one POLARITY_POS;
                                    Mark 1 f32_0_4 0]).
Proof.
  assert (E : run init [Mark 1 f32_0_4 0; Insert 1 12 f32_one POLARITY_POS;
                        Mark 1 f32_0_4 0]
    = Some (mkState (Node NULL (mkRBNode 1 0 POLARITY_POS f32_zero 0 1) NULL)
                    (set_streak 1 1 (fun _ => 0)))) by reflexivity.
  assert (R : forall b, 0 <= streak init b <= 0) by (intros b; cbn; lia).
  assert (C : 0 + Z.of_nat (List.length [Mark 1 f32_0_4 0;
                                         Insert 1 12 f32_one POLARITY_POS;
                                         Mark 1 f32_0_4 0]) <= INT_MAX)
    by (unfold INT_MAX; cbn; lia).
  split; [exact E|]. split; [exact R|]. split; [exact C|].
  exact (streak_after_history _ init _ 0 E R C).
Defined.
